(** * PreviewDocumentModal and ImageZoomViewer: a shallow embedding

    The two React components of the repository are embedded as pure
    functions over explicit state:

    - [detectFileType] and [getMimeType] are the two helper closures of
      [PreviewDocumentModal] (src/index.tsx);
    - the two [useEffect] hooks of the modal are run by [pass], which
      threads the component state, the remembered dependency arrays, the
      pending cleanup closure and the browser's object-URL registry;
    - the event handlers of [ImageZoomViewer] are functions from the
      values captured at the last render and the state being updated to
      the updated state.

    JavaScript strings are [string]; the JavaScript numbers of the zoom
    viewer are rationals [Q] (every scale the component can reach is a
    multiple of 1/4 between 1/2 and 5, see [zoom_scale_quarters], so
    binary64 arithmetic is exact on them). *)

From Stdlib Require Import String Ascii List Bool Lia QArith Qminmax Lqa Qround.
From stdpp Require Import base decidable gmap strings pretty.
Import ListNotations.

Open Scope string_scope.

(** ** JavaScript string primitives *)

Module JSString.

(** [s.startsWith(p)] *)
Definition startsWith (s p : string) : bool := String.prefix p s.

(** [s.includes(sub)]: [sub] occurs at some position of [s]. *)
Fixpoint includes (s sub : string) : bool :=
  startsWith s sub ||
  match s with
  | EmptyString => false
  | String _ rest => includes rest sub
  end.

(** Truthiness of a string: only the empty string is falsy. *)
Definition truthy (s : string) : bool :=
  match s with EmptyString => false | String _ _ => true end.

(** Truthiness of an optional string ([undefined] is falsy). *)
Definition truthy_opt (o : option string) : bool :=
  match o with Some s => truthy s | None => false end.

(** The relational reading of the two tests. *)
Definition StartsWith (s p : string) : Prop := exists t, s = p ++ t.
Definition Contains (s sub : string) : Prop := exists a b, s = a ++ sub ++ b.

End JSString.

Import JSString.

(** ** The type detector and the MIME resolver (src/index.tsx) *)

(** The union type ["image" | "pdf" | "document" | "unknown"]. *)
Inductive FileType := image | pdf | document | unknown.

Definition FileType_name (k : FileType) : string :=
  match k with
  | image => "image"
  | pdf => "pdf"
  | document => "document"
  | unknown => "unknown"
  end.

Definition docx_mime : string :=
  "application/vnd.openxmlformats-officedocument.wordprocessingml.document".
Definition xlsx_mime : string :=
  "application/vnd.openxmlformats-officedocument.spreadsheetml.sheet".
Definition pptx_mime : string :=
  "application/vnd.openxmlformats-officedocument.presentationml.presentation".

(** The fixed legacy/OOXML MIME strings compared with [===]. *)
Definition office_mimes : list string :=
  [docx_mime; xlsx_mime; pptx_mime;
   "application/msword"; "application/vnd.ms-excel"; "application/vnd.ms-powerpoint"].

(** The substrings tested with [includes]. *)
Definition document_markers : list string :=
  ["document"; "word"; "text"; "spreadsheet"; "presentation"].

Definition detectFileType (mimeType : option string) : FileType :=
  match mimeType with
  | Some m =>
      if truthy m then
        if startsWith m "image/" then image
        else if String.eqb m "application/pdf" then pdf
        else if includes m "document"
             || includes m "word"
             || includes m "text"
             || includes m "spreadsheet"
             || includes m "presentation"
             || String.eqb m docx_mime
             || String.eqb m xlsx_mime
             || String.eqb m pptx_mime
             || String.eqb m "application/msword"
             || String.eqb m "application/vnd.ms-excel"
             || String.eqb m "application/vnd.ms-powerpoint"
        then document
        else unknown
      else unknown
  | None => unknown
  end.

(** [getMimeType] takes the detected type as a plain string. *)
Definition getMimeType (detectedType : string) (providedMimeType : option string) : string :=
  let by_kind :=
    if String.eqb detectedType "pdf" then "application/pdf"
    else if String.eqb detectedType "image" then "image/jpeg"
    else if String.eqb detectedType "document" then "application/octet-stream"
    else "application/octet-stream" in
  match providedMimeType with
  | Some m => if truthy m then m else by_kind
  | None => by_kind
  end.

(** The per-kind default, in the words of the specification. *)
Definition spec_default_mime (k : FileType) : string :=
  match k with
  | pdf => "application/pdf"
  | image => "image/jpeg"
  | document | unknown => "application/octet-stream"
  end.

(** ** The object-URL registry of the browser

    [URL.createObjectURL] hands out a locator never issued before and
    records it as live; [URL.revokeObjectURL] releases one.  The locators
    are modelled as ["blob:"] followed by a serial number. *)

Record Registry := mkRegistry {
  next : nat;            (* serial number of the next locator *)
  live : gset string     (* locators created and not yet revoked *)
}.

Definition blob_url (n : nat) : string := "blob:" +:+ pretty n.

Definition createObjectURL (r : Registry) : string * Registry :=
  let url := blob_url (next r) in
  (url, {| next := S (next r); live := {[ url ]} ∪ live r |}).

Definition revokeObjectURL (url : string) (r : Registry) : Registry :=
  {| next := next r; live := live r ∖ {[ url ]} |}.

(** ** The values a [mediaFile?: any] prop can hold *)

(** Heap values carry the reference that [Object.is] compares.  The second
    argument of [JObject] is the outcome of reading [mediaFile.data]:
    [Reads v] when the read yields [v] ([JUndefined] when the object has no
    such property), [Throws] when the read raises (an accessor or a proxy
    trap).  A [JObject] converts to a string without failing.  [JSymbol] is
    a symbol; [JOpaque] is an object with no [data] property whose
    conversion to a string raises ([Object.create(null)], a [toString] that
    throws): [new Blob([x])] raises a [TypeError] for both. *)
Inductive JSValue :=
| JUndefined
| JNull
| JBool (b : bool)
| JNumber (n : Z)
| JString (s : string)
| JBlob (ref : nat)
| JArrayBuffer (ref : nat) (bytes : list Byte.byte)
| JObject (ref : nat) (data : PropertyRead)
| JSymbol (ref : nat)
| JOpaque (ref : nat)
with PropertyRead :=
| Reads (v : JSValue)
| Throws.

(** JavaScript truthiness. *)
Definition truthyValue (v : JSValue) : bool :=
  match v with
  | JUndefined | JNull => false
  | JBool b => b
  | JNumber n => negb (Z.eqb n 0)
  | JString s => truthy s
  | JBlob _ | JArrayBuffer _ _ | JObject _ _ | JSymbol _ | JOpaque _ => true
  end.

(** [Object.is], the comparison React applies to dependency arrays:
    primitives by value, heap values by reference. *)
Definition Object_is (v w : JSValue) : bool :=
  match v, w with
  | JUndefined, JUndefined => true
  | JNull, JNull => true
  | JBool a, JBool b => Bool.eqb a b
  | JNumber a, JNumber b => Z.eqb a b
  | JString a, JString b => String.eqb a b
  | JBlob a, JBlob b => Nat.eqb a b
  | JArrayBuffer a _, JArrayBuffer b _ => Nat.eqb a b
  | JObject a _, JObject b _ => Nat.eqb a b
  | JSymbol a, JSymbol b => Nat.eqb a b
  | JOpaque a, JOpaque b => Nat.eqb a b
  | _, _ => false
  end.

Definition option_string_is (a b : option string) : bool :=
  match a, b with
  | Some s, Some t => String.eqb s t
  | None, None => true
  | _, _ => false
  end.

(** ** PreviewDocumentModal: state, props and effects *)

(** The four [useState] cells. *)
Record State := mkState {
  documentUrl : string;
  isLoading : bool;
  error : string;
  fileType : FileType
}.

(** The props the effects read ([onClose] is only passed on to the dialog). *)
Record Props := mkProps {
  isOpen : bool;
  mediaFile : JSValue;
  mimeType : option string
}.

Definition setDocumentUrl (u : string) (s : State) : State :=
  {| documentUrl := u; isLoading := isLoading s; error := error s; fileType := fileType s |}.
Definition setIsLoading (b : bool) (s : State) : State :=
  {| documentUrl := documentUrl s; isLoading := b; error := error s; fileType := fileType s |}.
Definition setError (e : string) (s : State) : State :=
  {| documentUrl := documentUrl s; isLoading := isLoading s; error := e; fileType := fileType s |}.
Definition setFileType (k : FileType) (s : State) : State :=
  {| documentUrl := documentUrl s; isLoading := isLoading s; error := error s; fileType := k |}.

(** [new Blob([part])] raises for a part that has no string form. *)
Definition blobPartThrows (part : JSValue) : bool :=
  match part with
  | JSymbol _ | JOpaque _ => true
  | _ => false
  end.

(** How the [try] block of the first effect ends. *)
Inductive Outcome :=
| Located (url : string)        (* a branch called [setDocumentUrl url] *)
| Unsupported                   (* the final [else]: [setError("Unsupported media file format")] *)
| Thrown.                       (* an exception left the block *)

(** The [try] block (src/index.tsx, lines 92-129): the branches of the
    payload normalizer, in the order of the source. *)
Definition normalize (mediaFile : JSValue) (mimeType : option string)
    (detectedType : FileType) (r : Registry) : Outcome * Registry :=
  match mediaFile with
  | JString s =>
      if startsWith s "data:" then (Located s, r)
      else
        let detectedMimeType := getMimeType (FileType_name detectedType) mimeType in
        (Located ("data:" +:+ detectedMimeType +:+ ";base64," +:+ s), r)
  | JBlob _ =>
      let '(url, r') := createObjectURL r in (Located url, r')
  | JArrayBuffer _ _ =>
      let '(url, r') := createObjectURL r in (Located url, r')
  | JObject _ Throws => (Thrown, r)
  | JObject _ (Reads d) =>
      if truthyValue d then
        match d with
        | JString s =>
            let detectedMimeType := getMimeType (FileType_name detectedType) mimeType in
            (Located ("data:" +:+ detectedMimeType +:+ ";base64," +:+ s), r)
        | _ =>
            if blobPartThrows d then (Thrown, r)
            else let '(url, r') := createObjectURL r in (Located url, r')
        end
      else (Unsupported, r)
  | _ => (Unsupported, r)
  end.

(** The body of the first effect (lines 83-136), run with the props of the
    render it belongs to. *)
Definition normalizationEffect (p : Props) (s : State) (r : Registry) : State * Registry :=
  if truthyValue (mediaFile p) && isOpen p then
    let s := setIsLoading true s in
    let s := setError "" s in
    let detectedType := detectFileType (mimeType p) in
    let s := setFileType detectedType s in
    let '(o, r) := normalize (mediaFile p) (mimeType p) detectedType r in
    let s :=
      match o with
      | Located url => setDocumentUrl url s
      | Unsupported => setError "Unsupported media file format" s
      | Thrown => setError "Failed to load document" s        (* catch *)
      end in
    (setIsLoading false s, r)                                  (* finally *)
  else (s, r).

(** The cleanup closure the first effect returns (lines 139-143); the
    argument is the [documentUrl] of the render that created the closure. *)
Definition cleanup (capturedUrl : string) (r : Registry) : Registry :=
  if truthy capturedUrl && startsWith capturedUrl "blob:"
  then revokeObjectURL capturedUrl r
  else r.

(** The second effect (lines 148-153), with the [isOpen] and [documentUrl]
    of the render it belongs to. *)
Definition releaseOnCloseEffect (open : bool) (renderedUrl : string)
    (s : State) (r : Registry) : State * Registry :=
  if negb open && truthy renderedUrl && startsWith renderedUrl "blob:"
  then (setDocumentUrl "" s, revokeObjectURL renderedUrl r)
  else (s, r).

(** *** Running the effects the way React does

    A mounted component remembers, per effect, the dependency array of its
    last run; for the first effect it also keeps the cleanup closure that
    run returned.  The closure reads [documentUrl] from the render that
    created it, so it is represented by that captured string. *)
Record Fiber := mkFiber {
  state : State;
  deps1 : option Props;            (* [mediaFile, isOpen, mimeType] of the last run *)
  cleanup1 : option string;        (* [documentUrl] captured by the pending cleanup *)
  deps2 : option (bool * string);  (* [isOpen, documentUrl] of the last run *)
  registry : Registry
}.

Definition depsChanged1 (prev : option Props) (p : Props) : bool :=
  match prev with
  | None => true
  | Some q =>
      negb (Object_is (mediaFile q) (mediaFile p)
            && Bool.eqb (isOpen q) (isOpen p)
            && option_string_is (mimeType q) (mimeType p))
  end.

Definition depsChanged2 (prev : option (bool * string)) (open : bool) (url : string) : bool :=
  match prev with
  | None => true
  | Some (o, u) => negb (Bool.eqb o open && String.eqb u url)
  end.

(** The pending cleanup of the first effect and then the effect itself,
    when its dependencies changed.  The new cleanup closure captures the
    [documentUrl] of this render. *)
Definition afterEffect1 (p : Props) (f : Fiber) : Fiber :=
  if depsChanged1 (deps1 f) p then
    let r := match cleanup1 f with
             | Some captured => cleanup captured (registry f)
             | None => registry f
             end in
    {| state := fst (normalizationEffect p (state f) r);
       deps1 := Some p; cleanup1 := Some (documentUrl (state f));
       deps2 := deps2 f;
       registry := snd (normalizationEffect p (state f) r) |}
  else f.

(** One render with props [p] followed by its commit: the first effect
    with its cleanup, then the second, each only when its dependencies
    changed.  All closures of the render see the same [documentUrl]. *)
Definition pass (p : Props) (f : Fiber) : Fiber :=
  let renderedUrl := documentUrl (state f) in
  let f1 := afterEffect1 p f in
  if depsChanged2 (deps2 f1) (isOpen p) renderedUrl then
    let '(s, r) := releaseOnCloseEffect (isOpen p) renderedUrl (state f1) (registry f1) in
    {| state := s; deps1 := deps1 f1; cleanup1 := cleanup1 f1;
       deps2 := Some (isOpen p, renderedUrl); registry := r |}
  else f1.

Definition FileType_eqb (a b : FileType) : bool :=
  match a, b with
  | image, image | pdf, pdf | document, document | unknown, unknown => true
  | _, _ => false
  end.

Definition State_eqb (s t : State) : bool :=
  String.eqb (documentUrl s) (documentUrl t)
  && Bool.eqb (isLoading s) (isLoading t)
  && String.eqb (error s) (error t)
  && FileType_eqb (fileType s) (fileType t).

(** A state change made by an effect schedules another render with the
    same props; rendering stops when a pass leaves the state as it was. *)
Fixpoint rerender (fuel : nat) (p : Props) (f : Fiber) : Fiber :=
  match fuel with
  | O => f
  | S n =>
      let f' := pass p f in
      if State_eqb (state f) (state f') then f' else rerender n p f'
  end.

(** The parent renders the modal with props [p]; two passes always reach
    a state that a further pass leaves alone ([rerender_settles]). *)
Definition update (p : Props) (f : Fiber) : Fiber := rerender 2 p f.

Definition initialState : State :=
  {| documentUrl := ""; isLoading := false; error := ""; fileType := unknown |}.

(** A component about to mount; [r] is whatever the page's registry holds. *)
Definition unmounted (r : Registry) : Fiber :=
  {| state := initialState; deps1 := None; cleanup1 := None; deps2 := None; registry := r |}.

(** A registry in which this instance holds nothing yet. *)
Definition fresh_registry (n : nat) : Registry := {| next := n; live := ∅ |}.

Definition mount (p : Props) (n : nat) : Fiber := update p (unmounted (fresh_registry n)).

(** Unmounting runs the pending cleanup. *)
Definition unmount (f : Fiber) : Registry :=
  match cleanup1 f with
  | Some captured => cleanup captured (registry f)
  | None => registry f
  end.

(** The fibers a parent can produce: mount, then any sequence of renders.
    The index is the props of the last render. *)
Inductive reachable : Props -> Fiber -> Prop :=
| reach_mount p n : reachable p (mount p n)
| reach_update q p f : reachable q f -> reachable p (update p f).

(** *** Vocabulary for the properties of the modal *)

(** The outcome of the [try] block for props [p] in a registry that
    numbers from 0.  The branch taken never depends on the registry; only
    the serial number of a newly created locator does. *)
Definition outcome (p : Props) : Outcome :=
  fst (normalize (mediaFile p) (mimeType p) (detectFileType (mimeType p)) (fresh_registry 0)).

(** The locator the specification gives for a string payload. *)
Definition spec_string_locator (payload : string) (mimeHint : option string) : string :=
  if startsWith payload "data:" then payload
  else "data:" +:+ getMimeType (FileType_name (detectFileType mimeHint)) mimeHint
       +:+ ";base64," +:+ payload.

(** The message the effect stores for a failed normalization. *)
Definition failureMessage (o : Outcome) : string :=
  match o with
  | Unsupported => "Unsupported media file format"
  | _ => "Failed to load document"
  end.

(** Payloads for which the [try] block calls [URL.createObjectURL]: a
    [Blob], an [ArrayBuffer], or a wrapper whose [data] is truthy, not a
    string, and fit to be a part of a [Blob]. *)
Definition allocates (v : JSValue) : bool :=
  match v with
  | JBlob _ | JArrayBuffer _ _ => true
  | JObject _ (Reads (JString _)) => false
  | JObject _ (Reads d) => truthyValue d && negb (blobPartThrows d)
  | _ => false
  end.

(** A payload of none of the four shapes the normalizer knows: not a
    string, not a [Blob], not an [ArrayBuffer], not an object with a
    [data] property. *)
Definition no_branch_shape (v : JSValue) : bool :=
  match v with
  | JString _ | JBlob _ | JArrayBuffer _ _ => false
  | JObject _ (Reads JUndefined) => true
  | JObject _ _ => false
  | JUndefined | JNull | JBool _ | JNumber _ | JSymbol _ | JOpaque _ => true
  end.

(** The locators a registry has handed out so far. *)
Definition issued (r : Registry) (u : string) : Prop :=
  exists k, (k < next r)%nat /\ u = blob_url k.

(** The second effect is due after the render of [f] with props [p] and
    finds an object URL to release. *)
Definition releases (p : Props) (f : Fiber) : bool :=
  let d := documentUrl (state f) in
  depsChanged2 (deps2 f) (isOpen p) d
  && (negb (isOpen p) && truthy d && startsWith d "blob:").

(** What a render needs of the fiber it starts from: every live locator
    was issued by the registry and is either the stored one or the one the
    pending cleanup captured. *)
Record accounted (f : Fiber) : Prop := {
  accounted_live : forall u, u ∈ live (registry f) ->
                   issued (registry f) u
                   /\ (u = documentUrl (state f) \/ cleanup1 f = Some u);
  accounted_url : startsWith (documentUrl (state f)) "blob:" = true ->
                  issued (registry f) (documentUrl (state f));
  accounted_cleanup : deps1 f = None \/ exists c, cleanup1 f = Some c
}.

(** What holds of a fiber between two renders by the parent; [p] is the
    props of the last render. *)
Record settled (p : Props) (f : Fiber) : Prop := {
  settled_deps1 : depsChanged1 (deps1 f) p = false;
  settled_deps2 : deps2 f = Some (isOpen p, documentUrl (state f));
  settled_cleanup : exists c, cleanup1 f = Some c
                    /\ live (registry f) ⊆ {[ documentUrl (state f) ]} ∪ {[ c ]};
  settled_issued : forall u, u ∈ live (registry f) -> issued (registry f) u;
  settled_url : startsWith (documentUrl (state f)) "blob:" = true ->
                issued (registry f) (documentUrl (state f))
}.

(** *** What the modal shows *)

Inductive Preview :=
| NoContent                        (* [renderPreviewContent] returned null *)
| ImageElement (src : string)
| PdfFrame (src : string)
| DocumentFrame (locator : string) (* frame on the hosted viewer for [encodeURIComponent(locator)] *)
| NotAvailable (download : string).

Inductive Body :=
| LoadingSpinner
| ErrorDisplay (message : string) (download : option string)
| PreviewContent (c : Preview).

Record View := mkView {
  body : Body;
  footerDownload : option string
}.

(** [DocumentFrame url] stands for the frame whose address the source
    computes, while rendering, as [encodeURIComponent(url)] inside the
    viewer template ([googleViewerUrl] below); for a string that is not
    well-formed UTF-16 that computation raises [URIError] and the render
    fails.  Such strings have no UTF-8 form and are not values of the
    model: what is stated of a [DocumentFrame] holds of the source for
    well-formed locators only.  The other three viewers and the error
    display compute nothing from the locator. *)
Definition renderPreviewContent (s : State) : Preview :=
  if negb (truthy (documentUrl s)) then NoContent
  else match fileType s with
       | image => ImageElement (documentUrl s)
       | pdf => PdfFrame (documentUrl s)
       | document => DocumentFrame (documentUrl s)
       | unknown => NotAvailable (documentUrl s)
       end.

Definition render (s : State) : View :=
  {| body :=
       if isLoading s then LoadingSpinner
       else if truthy (error s) then
         ErrorDisplay (error s)
           (if truthy (documentUrl s) then Some (documentUrl s) else None)
       else PreviewContent (renderPreviewContent s);
     footerDownload :=
       if truthy (documentUrl s) && negb (truthy (error s))
       then Some (documentUrl s) else None |}.

(** The [onError] callbacks of the image element and of the PDF frame.
    The image element calls its callback when decoding fails.  React
    listens for no error event on a frame, so [onPdfError], though written
    in the source (line 181), is never called by the running program. *)
Definition onImageError (s : State) : State := setError "Failed to load image" s.
Definition onPdfError (s : State) : State := setError "Failed to load PDF" s.

(** *** Events of the rendered tree *)

(** An event handler of the rendered tree applies a state update to the
    mounted component. *)
Definition withState (g : State -> State) (f : Fiber) : Fiber :=
  {| state := g (state f); deps1 := deps1 f; cleanup1 := cleanup1 f;
     deps2 := deps2 f; registry := registry f |}.

(** The viewer [renderPreviewContent] picks for a kind and a locator. *)
Definition viewerFor (k : FileType) (url : string) : Preview :=
  match k with
  | image => ImageElement url
  | pdf => PdfFrame url
  | document => DocumentFrame url
  | unknown => NotAvailable url
  end.

(** What the state cells look like after the first effect has run for the
    open modal with a truthy payload: the spinner is off, the kind is the
    one detected from the hint, and either a non-empty locator is stored
    with no error, or one of the two failure messages is. *)
Definition normalized (p : Props) (s : State) : Prop :=
  fileType s = detectFileType (mimeType p) /\
  ((error s = "" /\ truthy (documentUrl s) = true)
   \/ error s = "Unsupported media file format"
   \/ error s = "Failed to load document").

Definition coherent (p : Props) (s : State) : Prop :=
  isLoading s = false /\
  (isOpen p = true -> truthyValue (mediaFile p) = true -> normalized p s).

(** *** The hosted document viewers (lines 186-205)

    [encodeURIComponent] escapes every byte of the UTF-8 form of its
    argument except the letters, the digits and the marks [- _ . ! ~ * ' ( )];
    strings stand for their UTF-8 bytes here. *)

Definition isAlphaNumeric (c : ascii) : bool :=
  let n := N_of_ascii c in
  ((48 <=? n) && (n <=? 57) || (65 <=? n) && (n <=? 90) || (97 <=? n) && (n <=? 122))%N.

Fixpoint occursIn (c : ascii) (s : string) : bool :=
  match s with
  | EmptyString => false
  | String d rest => Ascii.eqb c d || occursIn c rest
  end.

Definition unreserved (c : ascii) : bool :=
  isAlphaNumeric c || occursIn c "-_.!~*'()".

Definition hexDigit (n : N) : ascii :=
  match String.get (N.to_nat n) "0123456789ABCDEF" with
  | Some c => c
  | None => "0"%char
  end.

Definition hexHigh (c : ascii) : ascii := hexDigit (N_of_ascii c / 16).
Definition hexLow (c : ascii) : ascii := hexDigit (N_of_ascii c mod 16).

Fixpoint encodeURIComponent (s : string) : string :=
  match s with
  | EmptyString => EmptyString
  | String c rest =>
      if unreserved c then String c (encodeURIComponent rest)
      else String "%" (String (hexHigh c) (String (hexLow c) (encodeURIComponent rest)))
  end.

(** The [src] of the document frame, and the one its [onError] swaps in. *)
Definition googleViewerUrl (documentUrl : string) : string :=
  "https://docs.google.com/viewer?url=" +:+ encodeURIComponent documentUrl
  +:+ "&embedded=true".

Definition officeViewerUrl (documentUrl : string) : string :=
  "https://view.officeapps.live.com/op/embed.aspx?src=" +:+ encodeURIComponent documentUrl.

(** The value of a hexadecimal digit, and the byte two digits stand for. *)
Fixpoint hexIndex (c : ascii) (digits : string) (i : N) : option N :=
  match digits with
  | EmptyString => None
  | String d rest => if Ascii.eqb c d then Some i else hexIndex c rest (i + 1)%N
  end.

Definition hexPairValue (h l : ascii) : option ascii :=
  match hexIndex h "0123456789ABCDEF" 0, hexIndex l "0123456789ABCDEF" 0 with
  | Some a, Some b => Some (ascii_of_N (16 * a + b))
  | _, _ => None
  end.

(** ** ImageZoomViewer (the pan/zoom controller) *)

Module Zoom.

Local Open Scope Q_scope.

(** [{ x, y }] *)
Record Point := mkPoint { x : Q; y : Q }.

Definition origin : Point := {| x := 0; y := 0 |}.

(** The five [useState] cells. *)
Record ZoomState := mkZoom {
  scale : Q;
  position : Point;
  isDragging : bool;
  dragStart : Point;
  lastPosition : Point
}.

Definition minScale : Q := 1 # 2.   (* 0.5 *)
Definition maxScale : Q := 5.
Definition scaleStep : Q := 1 # 4.  (* 0.25 *)

(** [a > b] on numbers. *)
Definition gtb (a b : Q) : bool := negb (Qle_bool a b).

Definition setScale (f : Q -> Q) (s : ZoomState) : ZoomState :=
  {| scale := f (scale s); position := position s; isDragging := isDragging s;
     dragStart := dragStart s; lastPosition := lastPosition s |}.
Definition setPosition (p : Point) (s : ZoomState) : ZoomState :=
  {| scale := scale s; position := p; isDragging := isDragging s;
     dragStart := dragStart s; lastPosition := lastPosition s |}.
Definition setIsDragging (b : bool) (s : ZoomState) : ZoomState :=
  {| scale := scale s; position := position s; isDragging := b;
     dragStart := dragStart s; lastPosition := lastPosition s |}.
Definition setDragStart (p : Point) (s : ZoomState) : ZoomState :=
  {| scale := scale s; position := position s; isDragging := isDragging s;
     dragStart := p; lastPosition := lastPosition s |}.
Definition setLastPosition (p : Point) (s : ZoomState) : ZoomState :=
  {| scale := scale s; position := position s; isDragging := isDragging s;
     dragStart := dragStart s; lastPosition := p |}.

(** Every handler takes the state [r] of the render whose closure it is
    (the values the callback captured) and the state [s] its updates are
    applied to.  Functional updaters read [s]; everything else reads [r].
    Handlers created with an empty dependency list capture nothing. *)

Definition handleZoomIn (s : ZoomState) : ZoomState :=
  setScale (fun prevScale => Qmin (prevScale + scaleStep) maxScale) s.

Definition handleZoomOut (s : ZoomState) : ZoomState :=
  setScale (fun prevScale => Qmax (prevScale - scaleStep) minScale) s.

Definition handleReset (s : ZoomState) : ZoomState :=
  setPosition origin (setScale (fun _ => 1) s).

Definition handleMouseDown (r : ZoomState) (clientX clientY : Q) (s : ZoomState) : ZoomState :=
  if gtb (scale r) 1 then
    setLastPosition (position r)
      (setDragStart {| x := clientX; y := clientY |} (setIsDragging true s))
  else s.

(** The sums and differences of coordinates below are exact; those of the
    source are binary64 operations, which agree with them when the
    coordinates and the offset are integers of moderate size
    ([exactInteger]) and may round otherwise. *)
Definition handleMouseMove (r : ZoomState) (clientX clientY : Q) (s : ZoomState) : ZoomState :=
  if isDragging r && gtb (scale r) 1 then
    let deltaX := clientX - x (dragStart r) in
    let deltaY := clientY - y (dragStart r) in
    setPosition {| x := x (lastPosition r) + deltaX; y := y (lastPosition r) + deltaY |} s
  else s.

Definition handleMouseUp (s : ZoomState) : ZoomState := setIsDragging false s.

Definition handleWheel (deltaY : Q) (s : ZoomState) : ZoomState :=
  let delta := if gtb deltaY 0 then - scaleStep else scaleStep in
  setScale (fun prevScale => Qmax minScale (Qmin maxScale (prevScale + delta))) s.

(** [e.touches] is the list of the touch points' client coordinates. *)
Definition handleTouchStart (r : ZoomState) (touches : list Point) (s : ZoomState) : ZoomState :=
  match touches with
  | [touch] =>
      if gtb (scale r) 1 then
        setLastPosition (position r)
          (setDragStart {| x := x touch; y := y touch |} (setIsDragging true s))
      else s
  | _ => s
  end.

Definition handleTouchMove (r : ZoomState) (touches : list Point) (s : ZoomState) : ZoomState :=
  match touches with
  | [touch] =>
      if isDragging r && gtb (scale r) 1 then
        let deltaX := x touch - x (dragStart r) in
        let deltaY := y touch - y (dragStart r) in
        setPosition {| x := x (lastPosition r) + deltaX; y := y (lastPosition r) + deltaY |} s
      else s
  | _ => s
  end.

Definition handleTouchEnd (s : ZoomState) : ZoomState := setIsDragging false s.

(** The events the JSX wires to the handlers. *)
Inductive Event :=
| ZoomInClick
| ZoomOutClick
| ResetClick
| MouseDown (clientX clientY : Q)
| MouseMove (clientX clientY : Q)
| MouseUp
| MouseLeave
| Wheel (deltaY : Q)
| TouchStart (touches : list Point)
| TouchMove (touches : list Point)
| TouchEnd.

Definition dispatch (r : ZoomState) (e : Event) (s : ZoomState) : ZoomState :=
  match e with
  | ZoomInClick => handleZoomIn s
  | ZoomOutClick => handleZoomOut s
  | ResetClick => handleReset s
  | MouseDown cx cy => handleMouseDown r cx cy s
  | MouseMove cx cy => handleMouseMove r cx cy s
  | MouseUp | MouseLeave => handleMouseUp s
  | Wheel dy => handleWheel dy s
  | TouchStart ts => handleTouchStart r ts s
  | TouchMove ts => handleTouchMove r ts s
  | TouchEnd => handleTouchEnd s
  end.

(** The effect with dependency list [[scale]] (lines 27-31): it runs after
    a render whose [scale] differs from the previous render's. *)
Definition resetPositionEffect (s : ZoomState) : ZoomState :=
  if Qeq_bool (scale s) 1 then setPosition origin s else s.

Definition scaleChanged (r s : ZoomState) : bool := negb (Qeq_bool (scale r) (scale s)).

(** The events handled between two renders all run the callbacks of the
    render [r]; their updates are queued and applied in order.  The next
    render commits the result ([rendered], below) and then runs the effect
    if [scale] changed; [commit] is the state once that effect has run and
    its update has been rendered in turn. *)
Definition commit (r : ZoomState) (batch : list Event) : ZoomState :=
  let s := fold_left (fun s e => dispatch r e s) batch r in
  if scaleChanged r s then resetPositionEffect s else s.

(** The state the render after the batch commits to the screen, before
    its effect has run. *)
Definition rendered (r : ZoomState) (batch : list Event) : ZoomState :=
  fold_left (fun s e => dispatch r e s) batch r.

(** One event, one render: the ordinary case. *)
Definition step (r : ZoomState) (e : Event) : ZoomState := commit r [e].

Definition useStateInitial : ZoomState :=
  {| scale := 1; position := origin; isDragging := false;
     dragStart := origin; lastPosition := origin |}.

(** The first render; every effect runs once after it. *)
Definition mounted : ZoomState := resetPositionEffect useStateInitial.

(** The state after a sequence of renders, each preceded by its batch of events. *)
Definition run (batches : list (list Event)) : ZoomState := fold_left commit batches mounted.

(** The state after a sequence of events, each followed by a render. *)
Definition runEvents (events : list Event) : ZoomState := fold_left step events mounted.

(** Every state the component commits: the first render, the render that
    follows a batch of events (the effect of that render not yet run), and
    the state once the effects have run. *)
Inductive committed : ZoomState -> Prop :=
| committed_first : committed useStateInitial
| committed_render batches batch : committed (rendered (run batches) batch)
| committed_settled batches : committed (run batches).

(** Pointer-down and pointer-move, by mouse or by touch. *)
Definition pointerDownOrMove (e : Event) : bool :=
  match e with
  | MouseDown _ _ | MouseMove _ _ | TouchStart _ | TouchMove _ => true
  | _ => false
  end.

(** A whole number of quarter steps. *)
Definition quarters (s : ZoomState) : Prop := exists k : Z, scale s == k # 4.

(** The scale invariant of the data model. *)
Definition in_bounds (s : ZoomState) : Prop := minScale <= scale s <= maxScale.

(** Offset forced to the origin at native size. *)
Definition centered_at_native (s : ZoomState) : Prop :=
  scale s == 1 -> position s = origin.

(** *** What the viewer shows (the JSX, lines 120-204) *)

(** [disabled] of the three buttons. *)
Definition zoomInDisabled (s : ZoomState) : bool := Qle_bool maxScale (scale s).
Definition zoomOutDisabled (s : ZoomState) : bool := Qle_bool (scale s) minScale.
Definition resetDisabled (s : ZoomState) : bool :=
  Qeq_bool (scale s) 1 && Qeq_bool (x (position s)) 0 && Qeq_bool (y (position s)) 0.

(** [Math.round]: the nearest integer, halves rounded up. *)
Definition Math_round (q : Q) : Z := Qfloor (q + (1 # 2)).

(** The percentage in the top-left badge: [Math.round(scale * 100)]. *)
Definition percentLabel (s : ZoomState) : Z := Math_round (scale s * 100).

(** The "Drag to pan" hint is rendered when [scale > 1]. *)
Definition dragHintShown (s : ZoomState) : bool := gtb (scale s) 1.

Inductive Cursor := cursor_default | cursor_grab | cursor_grabbing.

Definition cursor (s : ZoomState) : Cursor :=
  if gtb (scale s) 1 then (if isDragging s then cursor_grabbing else cursor_grab)
  else cursor_default.

(** [scale(s) translate(tx px, ty px)] on the image wrapper.  The
    quotients are the exact ones; the source's binary64 division gives the
    same value when the offset is 0 and may round otherwise. *)
Record Transform := mkTransform { factor : Q; translateX : Q; translateY : Q }.

Definition transform (s : ZoomState) : Transform :=
  {| factor := scale s;
     translateX := x (position s) / scale s;
     translateY := y (position s) / scale s |}.

(** An integer that binary64 holds exactly, small enough for the sum of
    one such number and the difference of two others to be exact as well. *)
Definition exactInteger (q : Q) : Prop :=
  exists z : Z, q = inject_Z z /\ (Z.abs z <= 2 ^ 51)%Z.

(** A drag: the pointer goes down at [(ax, ay)] and then moves through the
    given points, each event followed by its render. *)
Definition drag (r : ZoomState) (ax ay : Q) (moves : list Point) : ZoomState :=
  fold_left step (map (fun m => MouseMove (x m) (y m)) moves) (step r (MouseDown ax ay)).

(** Pointer-up, pointer-leave and touch-end. *)
Definition pointerRelease (e : Event) : bool :=
  match e with
  | MouseUp | MouseLeave | TouchEnd => true
  | _ => false
  end.

(** Pointer-move, by mouse or by touch. *)
Definition pointerMove (e : Event) : bool :=
  match e with
  | MouseMove _ _ | TouchMove _ => true
  | _ => false
  end.

End Zoom.

(** * Properties *)

(** ** String primitives *)

Lemma startsWith_spec s p : startsWith s p = true <-> StartsWith s p.
Proof.
  unfold startsWith, StartsWith. revert s.
  induction p as [|c p IH]; intros s; simpl.
  - split; [intros _; now exists s | now destruct s].
  - destruct s as [|d s]; simpl.
    + split; [discriminate | intros [t Ht]; discriminate].
    + destruct (Ascii.ascii_dec c d) as [->|Hne].
      * rewrite IH. split; intros [t Ht]; exists t; [now subst | now inversion Ht].
      * split; [discriminate | intros [t Ht]; inversion Ht; congruence].
Qed.

Lemma includes_spec s sub : includes s sub = true <-> Contains s sub.
Proof.
  unfold Contains. induction s as [|c s IH].
  - cbn [includes]. rewrite orb_false_r, startsWith_spec. split.
    + intros [t Ht]. now exists "", t.
    + intros [a [b Hab]]. destruct a; [now exists b | discriminate].
  - cbn [includes]. rewrite orb_true_iff, startsWith_spec, IH. split.
    + intros [[t Ht] | [a [b Hab]]].
      * now exists "", t.
      * exists (String c a), b. simpl. now rewrite Hab.
    + intros [a [b Hab]]. destruct a as [|d a].
      * left. now exists b.
      * right. simpl in Hab. inversion Hab; subst. now exists a, b.
Qed.

Lemma truthy_spec s : truthy s = true <-> s <> "".
Proof. destruct s; simpl; split; congruence. Qed.

Lemma truthy_false s : truthy s = false <-> s = "".
Proof. destruct s; simpl; split; congruence. Qed.

Lemma startsWith_false s p : startsWith s p = false <-> ~ StartsWith s p.
Proof. rewrite <- startsWith_spec. destruct (startsWith s p); split; congruence. Qed.

Lemma existsb_includes s subs :
  existsb (includes s) subs = true <-> Exists (Contains s) subs.
Proof.
  rewrite existsb_exists, List.Exists_exists.
  split; intros [sub [Hin H]]; exists sub; split; auto; now apply includes_spec.
Qed.

Lemma existsb_eqb s l : existsb (String.eqb s) l = true <-> In s l.
Proof.
  rewrite existsb_exists. split.
  - intros [t [Hin H]]. apply String.eqb_eq in H. now subst.
  - intros H. exists s. split; [assumption | apply String.eqb_refl].
Qed.

(** ** The type detector *)

(** The decision table of [detectFileType], with the two groups of tests
    folded over their lists. *)
Lemma detectFileType_table m :
  detectFileType (Some m) =
    if startsWith m "image/" then image
    else if String.eqb m "application/pdf" then pdf
    else if existsb (includes m) document_markers || existsb (String.eqb m) office_mimes
    then document else unknown.
Proof.
  unfold detectFileType. destruct (truthy m) eqn:Ht.
  - cbn [existsb document_markers office_mimes].
    rewrite !orb_false_r, <- !orb_assoc. reflexivity.
  - apply truthy_false in Ht. subst m. reflexivity.
Qed.

(** C2. [detectFileType] is a total function of the optional MIME hint:
    an absent hint gives [unknown]; a hint gives [image] exactly when it
    starts with "image/", [pdf] exactly when it is "application/pdf",
    [document] exactly when neither holds and it contains one of the five
    marker substrings or equals one of the six office MIME strings, and
    [unknown] in every other case. *)
Theorem detectFileType_correct :
  detectFileType None = unknown /\
  forall m : string,
    let office := Exists (Contains m) document_markers \/ In m office_mimes in
    (detectFileType (Some m) = image <-> StartsWith m "image/") /\
    (detectFileType (Some m) = pdf <-> m = "application/pdf") /\
    (detectFileType (Some m) = document <->
       ~ StartsWith m "image/" /\ m <> "application/pdf" /\ office) /\
    (detectFileType (Some m) = unknown <->
       ~ StartsWith m "image/" /\ m <> "application/pdf" /\ ~ office).
Proof.
  split; [reflexivity |].
  intros m office.
  assert (Hoff : existsb (includes m) document_markers
                 || existsb (String.eqb m) office_mimes = true <-> office).
  { unfold office. now rewrite orb_true_iff, existsb_includes, existsb_eqb. }
  rewrite detectFileType_table.
  destruct (startsWith m "image/") eqn:Himg.
  - apply startsWith_spec in Himg.
    repeat split; try discriminate; try tauto.
    intros ->. destruct Himg as [t Ht]. discriminate.
  - apply startsWith_false in Himg.
    destruct (String.eqb_spec m "application/pdf") as [Hpdf | Hpdf].
    + repeat split; try discriminate; try tauto.
    + destruct (existsb (includes m) document_markers
                || existsb (String.eqb m) office_mimes) eqn:Hd.
      * assert office by now apply Hoff.
        repeat split; try discriminate; try tauto.
      * assert (~ office) by (intros Ho; apply Hoff in Ho; discriminate).
        repeat split; try discriminate; try tauto.
Qed.

(** ** The MIME resolver *)

(** C3. For every detected kind, [getMimeType] returns a non-empty provided
    hint unchanged, and returns the per-kind default when the hint is
    absent or empty: "application/pdf" for pdf, "image/jpeg" for image and
    "application/octet-stream" for document and unknown. *)
Theorem getMimeType_correct (k : FileType) :
  (forall hint : string, hint <> "" -> getMimeType (FileType_name k) (Some hint) = hint) /\
  getMimeType (FileType_name k) None = spec_default_mime k /\
  getMimeType (FileType_name k) (Some "") = spec_default_mime k.
Proof.
  split; [| split].
  - intros hint Hne. unfold getMimeType.
    destruct hint; [congruence | reflexivity].
  - destruct k; reflexivity.
  - destruct k; reflexivity.
Qed.

Lemma getMimeType_correct_witness :
  "image/png" <> "" /\ getMimeType (FileType_name pdf) (Some "image/png") = "image/png".
Proof.
  split; [discriminate |].
  apply (proj1 (getMimeType_correct pdf) "image/png"). discriminate.
Defined.

(** The same holds for any string passed as the detected type: only "pdf"
    and "image" have a default of their own. *)
Lemma getMimeType_any_string (detectedType : string) (hint : option string) :
  getMimeType detectedType hint =
    if truthy_opt hint then default "" hint
    else if String.eqb detectedType "pdf" then "application/pdf"
    else if String.eqb detectedType "image" then "image/jpeg"
    else "application/octet-stream".
Proof.
  unfold getMimeType, truthy_opt.
  destruct hint as [h|]; [destruct (truthy h) |]; simpl;
    repeat match goal with |- context [String.eqb ?a ?b] => destruct (String.eqb a b) end;
    reflexivity.
Qed.

(** ** The pan/zoom controller *)

Section ZoomFacts.

Import Zoom.
Local Open Scope Q_scope.

Lemma gtb_spec a b : gtb a b = true <-> b < a.
Proof.
  unfold gtb. rewrite negb_true_iff. split.
  - intros H. apply Qnot_le_lt. intros Hle. apply Qle_bool_iff in Hle. congruence.
  - intros H. destruct (Qle_bool a b) eqn:E; [| reflexivity].
    apply Qle_bool_iff in E. exfalso. apply (Qlt_not_le _ _ H E).
Qed.

Lemma gtb_false a b : a <= b -> gtb a b = false.
Proof. intros H. unfold gtb. apply Qle_bool_iff in H. now rewrite H. Qed.

Lemma clamp_in_bounds v : minScale <= Qmax minScale (Qmin maxScale v) <= maxScale.
Proof.
  unfold minScale, maxScale. split.
  - apply Q.le_max_l.
  - apply Q.max_lub; [lra | apply Q.le_min_l].
Qed.

Lemma dispatch_in_bounds r e s : in_bounds s -> in_bounds (dispatch r e s).
Proof.
  unfold in_bounds, minScale, maxScale. intros [Hlo Hhi].
  destruct e as [ | | | cx cy | cx cy | | | dy | ts | ts | ]; simpl;
    unfold handleMouseDown, handleMouseMove, handleTouchStart, handleTouchMove;
    repeat match goal with
           | |- context [match ?l with [] => _ | _ :: _ => _ end] => destruct l
           | |- context [if ?b then _ else _] => destruct b
           end; simpl; try (split; assumption); try lra.
  - unfold scaleStep, maxScale. split.
    + apply Q.min_glb; lra.
    + apply Q.le_min_r.
  - unfold scaleStep, minScale. split.
    + apply Q.le_max_r.
    + apply Q.max_lub; lra.
  - apply clamp_in_bounds.
  - apply clamp_in_bounds.
Qed.

Lemma fold_dispatch_in_bounds r batch s :
  in_bounds s -> in_bounds (fold_left (fun s e => dispatch r e s) batch s).
Proof.
  revert s. induction batch as [|e batch IH]; intros s Hs; simpl.
  - exact Hs.
  - apply IH. now apply dispatch_in_bounds.
Qed.

Lemma resetPositionEffect_scale s : scale (resetPositionEffect s) = scale s.
Proof. unfold resetPositionEffect. now destruct (Qeq_bool (scale s) 1). Qed.

Lemma commit_scale r batch :
  scale (commit r batch) = scale (fold_left (fun s e => dispatch r e s) batch r).
Proof.
  unfold commit. destruct (scaleChanged _ _); [apply resetPositionEffect_scale | reflexivity].
Qed.

Lemma commit_in_bounds r batch : in_bounds r -> in_bounds (commit r batch).
Proof.
  intros Hr. unfold in_bounds. rewrite commit_scale.
  now apply fold_dispatch_in_bounds.
Qed.

Lemma mounted_in_bounds : in_bounds mounted.
Proof. unfold in_bounds, minScale, maxScale. simpl. lra. Qed.

Lemma fold_commit_in_bounds batches s :
  in_bounds s -> in_bounds (fold_left commit batches s).
Proof.
  revert s. induction batches as [|b bs IH]; intros s Hs; simpl.
  - exact Hs.
  - apply IH. now apply commit_in_bounds.
Qed.

Lemma runEvents_run events : runEvents events = run (map (fun e => [e]) events).
Proof.
  unfold runEvents, run. generalize mounted.
  induction events as [|e es IH]; intros s; simpl; [reflexivity | apply IH].
Qed.

(** C5. Starting from scale 1, after any finite sequence of events (the
    zoom-in and zoom-out buttons and the wheel among them), whether each
    event is followed by a render or several are handled between two
    renders, the scale lies in the closed interval from 0.5 to 5. *)
Theorem zoom_scale_never_leaves_bounds :
  (forall events : list Event,
      (1 # 2) <= scale (runEvents events) <= 5) /\
  (forall batches : list (list Event),
      (1 # 2) <= scale (run batches) <= 5).
Proof.
  assert (H : forall batches, in_bounds (run batches)).
  { intros batches. unfold run.
    apply fold_commit_in_bounds, mounted_in_bounds. }
  split.
  - intros events. rewrite runEvents_run. apply H.
  - exact H.
Qed.

(** Every reachable scale is a whole number of quarter steps, so the
    binary64 arithmetic of the source is exact on it. *)
Local Ltac pick_quarter E := eexists; rewrite E; eassumption.

Lemma dispatch_quarters r e s : quarters s -> quarters (dispatch r e s).
Proof.
  unfold quarters. intros [k Hk].
  assert (Hup : scale s + scaleStep == (k + 1) # 4).
  { rewrite Hk. unfold scaleStep, Qeq, Qplus. simpl. lia. }
  assert (Hdn : scale s - scaleStep == (k - 1) # 4).
  { rewrite Hk. unfold scaleStep, Qeq, Qminus, Qplus, Qopp. simpl. lia. }
  assert (Hdn' : scale s + - scaleStep == (k - 1) # 4) by exact Hdn.
  assert (Hmin : minScale == 2 # 4) by reflexivity.
  assert (Hmax : maxScale == 20 # 4) by reflexivity.
  destruct e as [ | | | cx cy | cx cy | | | dy | ts | ts | ]; simpl;
    unfold handleMouseDown, handleMouseMove, handleTouchStart, handleTouchMove;
    repeat match goal with
           | |- context [match ?l with [] => _ | _ :: _ => _ end] => destruct l
           | |- context [if ?b then _ else _] => destruct b
           end; simpl; try (now exists k).
  - destruct (Q.min_spec (scale s + scaleStep) maxScale) as [[_ E] | [_ E]]; pick_quarter E.
  - destruct (Q.max_spec (scale s - scaleStep) minScale) as [[_ E] | [_ E]]; pick_quarter E.
  - exists 4%Z. reflexivity.
  - destruct (Q.max_spec minScale (Qmin maxScale (scale s + - scaleStep)))
      as [[_ E] | [_ E]]; [| pick_quarter E].
    destruct (Q.min_spec maxScale (scale s + - scaleStep)) as [[_ E'] | [_ E']];
      eexists; rewrite E, E'; eassumption.
  - destruct (Q.max_spec minScale (Qmin maxScale (scale s + scaleStep)))
      as [[_ E] | [_ E]]; [| pick_quarter E].
    destruct (Q.min_spec maxScale (scale s + scaleStep)) as [[_ E'] | [_ E']];
      eexists; rewrite E, E'; eassumption.
Qed.

Lemma zoom_scale_quarters batches : quarters (run batches).
Proof.
  unfold run.
  assert (H0 : quarters mounted) by (exists 4%Z; reflexivity).
  revert H0. generalize mounted.
  induction batches as [|b bs IH]; intros s Hs; simpl; [exact Hs |].
  apply IH. unfold quarters. rewrite commit_scale.
  clear IH. generalize s at 1. revert s Hs.
  induction b as [|e b IHb]; intros s Hs r; simpl; [exact Hs |].
  apply IHb. now apply dispatch_quarters.
Qed.

(** *** Offset at native size *)

Lemma dispatch_scale_pointer r e s :
  pointerDownOrMove e = true -> scale (dispatch r e s) = scale s.
Proof.
  destruct e as [ | | | cx cy | cx cy | | | dy | ts | ts | ]; try discriminate;
    intros _; simpl;
    unfold handleMouseDown, handleMouseMove, handleTouchStart, handleTouchMove;
    repeat match goal with
           | |- context [match ?l with [] => _ | _ :: _ => _ end] => destruct l
           | |- context [if ?b then _ else _] => destruct b
           end; reflexivity.
Qed.

(** With the callbacks of a render at or below native size, no event moves
    the offset away from the origin. *)
Lemma dispatch_keeps_origin r e s :
  gtb (scale r) 1 = false -> position s = origin -> position (dispatch r e s) = origin.
Proof.
  intros Hr Hs.
  destruct e as [ | | | cx cy | cx cy | | | dy | ts | ts | ]; simpl;
    unfold handleMouseDown, handleMouseMove, handleTouchStart, handleTouchMove;
    rewrite ?Hr, ?andb_false_r;
    repeat match goal with
           | |- context [match ?l with [] => _ | _ :: _ => _ end] => destruct l
           end; simpl; auto.
Qed.

Lemma fold_dispatch_keeps_origin r batch s :
  gtb (scale r) 1 = false -> position s = origin ->
  position (fold_left (fun s e => dispatch r e s) batch s) = origin.
Proof.
  intros Hr. revert s. induction batch as [|e batch IH]; intros s Hs; simpl.
  - exact Hs.
  - apply IH. now apply dispatch_keeps_origin.
Qed.

Lemma resetPositionEffect_position s :
  position s = origin -> position (resetPositionEffect s) = origin.
Proof. unfold resetPositionEffect. now destruct (Qeq_bool (scale s) 1). Qed.

Lemma commit_centered r batch :
  centered_at_native r -> centered_at_native (commit r batch).
Proof.
  unfold centered_at_native. intros Hr Hone.
  rewrite commit_scale in Hone. unfold commit.
  set (s := fold_left (fun s e => dispatch r e s) batch r) in *.
  destruct (Qeq_bool (scale r) 1) eqn:Er.
  - apply Qeq_bool_iff in Er.
    assert (Hs : position s = origin).
    { apply fold_dispatch_keeps_origin; [| now apply Hr].
      apply gtb_false. rewrite Er. apply Qle_refl. }
    destruct (scaleChanged r s); [now apply resetPositionEffect_position | exact Hs].
  - assert (Hch : scaleChanged r s = true).
    { unfold scaleChanged. apply negb_true_iff.
      destruct (Qeq_bool (scale r) (scale s)) eqn:Ers; [| reflexivity].
      apply Qeq_bool_iff in Ers. rewrite Ers in Er.
      apply Qeq_bool_iff in Hone. congruence. }
    rewrite Hch. unfold resetPositionEffect.
    apply Qeq_bool_iff in Hone. now rewrite Hone.
Qed.

Lemma run_centered batches : centered_at_native (run batches).
Proof.
  unfold run.
  assert (H0 : centered_at_native mounted) by (intros _; reflexivity).
  revert H0. generalize mounted.
  induction batches as [|b bs IH]; intros s Hs; simpl; [exact Hs |].
  apply IH. now apply commit_centered.
Qed.

Lemma commit_rendered r batch :
  commit r batch =
    if scaleChanged r (rendered r batch)
    then resetPositionEffect (rendered r batch) else rendered r batch.
Proof. reflexivity. Qed.

(** C6, as amended. In every state the controller is in once the effect of
    the last render has run (after any sequence of events, each followed by
    its render, or handled several at a time between renders), a scale
    equal to 1 comes with the offset (0,0).  The render that follows the
    events is committed before its effect runs: when it has scale 1, either
    its offset is (0,0) already, or the scale has just changed to 1 and the
    effect of that very render sets the offset to (0,0).  A render whose
    last event was a click on Reset has scale 1 and offset (0,0) from the
    start. *)
Theorem zoom_offset_zero_at_native :
  (forall events : list Event,
      scale (runEvents events) == 1 -> position (runEvents events) = origin) /\
  (forall batches : list (list Event),
      scale (run batches) == 1 -> position (run batches) = origin) /\
  (forall (batches : list (list Event)) (batch : list Event),
      let r := run batches in
      scale (rendered r batch) == 1 ->
      position (rendered r batch) = origin
      \/ (~ scale r == 1
          /\ scale (commit r batch) == 1 /\ position (commit r batch) = origin)) /\
  (forall (r : ZoomState) (batch : list Event),
      scale (rendered r (batch ++ [ResetClick])%list) = 1
      /\ position (rendered r (batch ++ [ResetClick])%list) = origin).
Proof.
  split; [| split; [| split]].
  - intros events. rewrite runEvents_run. apply run_centered.
  - intros batches. apply run_centered.
  - intros batches batch r Hone.
    destruct (Qeq_bool (scale r) 1) eqn:Er.
    + left. apply Qeq_bool_iff in Er. unfold rendered.
      apply fold_dispatch_keeps_origin.
      * apply gtb_false. rewrite Er. apply Qle_refl.
      * now apply (run_centered batches).
    + right. split.
      * intros E. apply Qeq_bool_iff in E. congruence.
      * assert (Hs : scale (commit r batch) == 1) by (rewrite commit_scale; exact Hone).
        split; [exact Hs |].
        apply (commit_centered r batch (run_centered batches)), Hs.
  - intros r batch. unfold rendered. rewrite fold_left_app. split; reflexivity.
Qed.

(** C6, as stated, fails: after a drag at scale 1.25, the render that
    follows a click on zoom-out is committed with scale 1 and the offset
    of the drag; only the effect of that render resets it. *)
Lemma zoom_out_commits_stale_offset :
  ~ (forall s : ZoomState, committed s -> scale s == 1 -> position s = origin).
Proof.
  intros H.
  specialize (H (rendered (run [[ZoomInClick]; [MouseDown 3 4]; [MouseMove 13 24]])
                   [ZoomOutClick])
                (committed_render _ _)).
  assert (E : scale (rendered (run [[ZoomInClick]; [MouseDown 3 4]; [MouseMove 13 24]])
                       [ZoomOutClick]) == 1) by reflexivity.
  specialize (H E). vm_compute in H. discriminate H.
Qed.

(** A drag begun at scale 1.25 moves the offset; zooming back out to 1
    returns it to the origin. *)
Lemma zoom_offset_zero_at_native_witness :
  position (runEvents [ZoomInClick; MouseDown 3 4; MouseMove 13 24]) = {| x := 0 + (13 - 3); y := 0 + (24 - 4) |} /\
  scale (runEvents [ZoomInClick; MouseDown 3 4; MouseMove 13 24; ZoomOutClick]) == 1 /\
  position (runEvents [ZoomInClick; MouseDown 3 4; MouseMove 13 24; ZoomOutClick]) = origin.
Proof.
  split; [reflexivity |].
  split; [reflexivity |].
  apply (proj1 zoom_offset_zero_at_native
           [ZoomInClick; MouseDown 3 4; MouseMove 13 24; ZoomOutClick]).
  reflexivity.
Defined.

(** The same drag followed by the reset button, and by a wheel turn. *)
Example drag_then_reset :
  let s := runEvents [ZoomInClick; MouseDown 3 4; MouseMove 13 24; MouseUp; ResetClick] in
  scale s = 1 /\ position s = origin.
Proof. split; reflexivity. Qed.

Example drag_then_wheel_out :
  position (runEvents [ZoomInClick; MouseDown 3 4; MouseMove 13 24; Wheel 100]) = origin.
Proof. reflexivity. Qed.

(** *** Panning is off at or below native size *)

(** C7. With the callbacks of a render whose scale is at most 1, a
    pointer-down or pointer-move event (mouse or touch) changes nothing:
    the offset stays and no drag starts.  Conversely a pointer-down starts
    a drag only when the scale exceeds 1, and a pointer-move changes the
    offset only while dragging with a scale above 1. *)
Theorem zoom_no_pan_at_or_below_native (r : ZoomState) (e : Event) :
  pointerDownOrMove e = true ->
  (scale r <= 1 -> (forall s, dispatch r e s = s) /\ step r e = r) /\
  (forall s, isDragging s = false -> isDragging (dispatch r e s) = true -> 1 < scale r) /\
  (forall s, position (dispatch r e s) <> position s ->
             isDragging r = true /\ 1 < scale r).
Proof.
  intros He. split; [| split].
  - intros Hr. apply gtb_false in Hr.
    assert (Hd : forall s, dispatch r e s = s).
    { intros s.
      destruct e as [ | | | cx cy | cx cy | | | dy | ts | ts | ]; try discriminate; simpl;
        unfold handleMouseDown, handleMouseMove, handleTouchStart, handleTouchMove;
        rewrite ?Hr, ?andb_false_r;
        repeat match goal with
               | |- context [match ?l with [] => _ | _ :: _ => _ end] => destruct l
               end; reflexivity. }
    split; [exact Hd |].
    unfold step, commit. simpl. rewrite Hd.
    unfold scaleChanged. now rewrite Qeq_bool_refl.
  - intros s Hs.
    destruct e as [ | | | cx cy | cx cy | | | dy | ts | ts | ]; try discriminate; simpl;
      unfold handleMouseDown, handleMouseMove, handleTouchStart, handleTouchMove;
      repeat match goal with
             | |- context [match ?l with [] => _ | _ :: _ => _ end] => destruct l
             end;
      try (destruct (isDragging r)); simpl;
      destruct (gtb (scale r) 1) eqn:Hg; simpl;
      try (intros _; now apply gtb_spec); congruence.
  - intros s.
    destruct e as [ | | | cx cy | cx cy | | | dy | ts | ts | ]; try discriminate; simpl;
      unfold handleMouseDown, handleMouseMove, handleTouchStart, handleTouchMove;
      repeat match goal with
             | |- context [match ?l with [] => _ | _ :: _ => _ end] => destruct l
             end;
      try (destruct (isDragging r)); simpl;
      destruct (gtb (scale r) 1) eqn:Hg; simpl;
      try (intros _; split; [reflexivity | now apply gtb_spec]); congruence.
Qed.

(** After zooming out to 0.75, pressing and moving the mouse leaves the
    state as it was. *)
Lemma zoom_no_pan_at_or_below_native_witness :
  scale (runEvents [ZoomOutClick]) <= 1 /\
  step (runEvents [ZoomOutClick]) (MouseMove 13 24) = runEvents [ZoomOutClick] /\
  step (runEvents [ZoomOutClick]) (MouseDown 3 4) = runEvents [ZoomOutClick].
Proof.
  assert (H : scale (runEvents [ZoomOutClick]) <= 1) by (vm_compute; discriminate).
  split; [exact H |]. split.
  - apply (zoom_no_pan_at_or_below_native (runEvents [ZoomOutClick]) (MouseMove 13 24));
      [reflexivity | exact H].
  - apply (zoom_no_pan_at_or_below_native (runEvents [ZoomOutClick]) (MouseDown 3 4));
      [reflexivity | exact H].
Defined.

End ZoomFacts.

(** ** The modal: running the effects *)

Lemma State_eqb_eq s t : State_eqb s t = true <-> s = t.
Proof.
  unfold State_eqb. destruct s as [u l e k], t as [u' l' e' k']; simpl.
  rewrite !andb_true_iff, !String.eqb_eq, Bool.eqb_true_iff. split.
  - intros [[[-> ->] ->] Hk]. destruct k, k'; try discriminate; reflexivity.
  - intros H. inversion H; subst. repeat split. now destruct k'.
Qed.

Lemma Object_is_refl v : Object_is v v = true.
Proof.
  destruct v; simpl; auto using Bool.eqb_reflx, Z.eqb_refl, String.eqb_refl, Nat.eqb_refl.
Qed.

Lemma depsChanged1_refl p : depsChanged1 (Some p) p = false.
Proof.
  unfold depsChanged1. rewrite Object_is_refl, Bool.eqb_reflx. simpl.
  destruct (mimeType p); simpl; [now rewrite String.eqb_refl | reflexivity].
Qed.

Lemma depsChanged2_false prev o u :
  depsChanged2 prev o u = false <-> prev = Some (o, u).
Proof.
  unfold depsChanged2. destruct prev as [[o' u']|]; [| split; discriminate].
  rewrite negb_false_iff, andb_true_iff, Bool.eqb_true_iff, String.eqb_eq.
  split; [intros [-> ->]; reflexivity | intros H; inversion H; auto].
Qed.

Lemma depsChanged1_open q p :
  depsChanged1 (Some q) p = false -> isOpen q = isOpen p.
Proof.
  unfold depsChanged1. rewrite negb_false_iff, !andb_true_iff.
  intros [[_ H] _]. now apply Bool.eqb_true_iff.
Qed.

Lemma pass_unfold p f :
  pass p f =
    let d := documentUrl (state f) in
    let f1 := afterEffect1 p f in
    if depsChanged2 (deps2 f1) (isOpen p) d then
      {| state := fst (releaseOnCloseEffect (isOpen p) d (state f1) (registry f1));
         deps1 := deps1 f1; cleanup1 := cleanup1 f1;
         deps2 := Some (isOpen p, d);
         registry := snd (releaseOnCloseEffect (isOpen p) d (state f1) (registry f1)) |}
    else f1.
Proof.
  unfold pass. cbv zeta.
  destruct (depsChanged2 _ _ _); [| reflexivity].
  now destruct (releaseOnCloseEffect _ _ _ _).
Qed.

Lemma normalizationEffect_closed p s r :
  isOpen p = false -> normalizationEffect p s r = (s, r).
Proof. intros H. unfold normalizationEffect. now rewrite H, andb_false_r. Qed.

Lemma releaseOnCloseEffect_open d s r : releaseOnCloseEffect true d s r = (s, r).
Proof. reflexivity. Qed.

Lemma afterEffect1_deps1 p f : depsChanged1 (deps1 (afterEffect1 p f)) p = false.
Proof.
  unfold afterEffect1. destruct (depsChanged1 (deps1 f) p) eqn:E; simpl.
  - apply depsChanged1_refl.
  - exact E.
Qed.

Lemma afterEffect1_deps2 p f : deps2 (afterEffect1 p f) = deps2 f.
Proof. unfold afterEffect1. now destruct (depsChanged1 (deps1 f) p). Qed.

Lemma afterEffect1_closed_state p f :
  isOpen p = false -> state (afterEffect1 p f) = state f.
Proof.
  intros H. unfold afterEffect1. destruct (depsChanged1 (deps1 f) p); [| reflexivity].
  simpl. now rewrite normalizationEffect_closed.
Qed.

Lemma afterEffect1_idle p f :
  depsChanged1 (deps1 f) p = false -> afterEffect1 p f = f.
Proof. intros H. unfold afterEffect1. now rewrite H. Qed.

Lemma pass_deps1 p f : depsChanged1 (deps1 (pass p f)) p = false.
Proof.
  rewrite pass_unfold. cbv zeta.
  destruct (depsChanged2 _ _ _); simpl; apply afterEffect1_deps1.
Qed.

Lemma pass_deps2 p f : deps2 (pass p f) = Some (isOpen p, documentUrl (state f)).
Proof.
  rewrite pass_unfold. cbv zeta.
  destruct (depsChanged2 _ _ _) eqn:E; simpl; [reflexivity |].
  now apply depsChanged2_false in E.
Qed.

Lemma pass_open p f :
  isOpen p = true ->
  state (pass p f) = state (afterEffect1 p f) /\
  registry (pass p f) = registry (afterEffect1 p f) /\
  cleanup1 (pass p f) = cleanup1 (afterEffect1 p f).
Proof.
  intros H. rewrite pass_unfold. cbv zeta. rewrite H.
  destruct (depsChanged2 _ _ _); simpl; auto.
Qed.

(** A pass whose effects are both idle changes nothing. *)
Lemma pass_idle p f :
  depsChanged1 (deps1 f) p = false ->
  deps2 f = Some (isOpen p, documentUrl (state f)) ->
  pass p f = f.
Proof.
  intros H1 H2. rewrite pass_unfold. cbv zeta.
  rewrite (afterEffect1_idle _ _ H1).
  apply depsChanged2_false in H2. now rewrite H2.
Qed.

Lemma pass_closed_state p f :
  isOpen p = false ->
  let d := documentUrl (state f) in
  state (pass p f) =
    if depsChanged2 (deps2 f) false d && (truthy d && startsWith d "blob:")
    then setDocumentUrl "" (state f) else state f.
Proof.
  intros Ho d. rewrite pass_unfold. cbv zeta.
  rewrite afterEffect1_deps2, Ho. fold d.
  destruct (depsChanged2 (deps2 f) false d); simpl.
  - unfold releaseOnCloseEffect. simpl. rewrite (afterEffect1_closed_state _ _ Ho).
    now destruct (truthy d && startsWith d "blob:").
  - now apply afterEffect1_closed_state.
Qed.

(** The pass after a pass only refreshes the dependencies of the second
    effect. *)
Lemma pass_pass p f :
  let f1 := pass p f in
  state (pass p f1) = state f1 /\ registry (pass p f1) = registry f1 /\
  deps1 (pass p f1) = deps1 f1 /\ cleanup1 (pass p f1) = cleanup1 f1.
Proof.
  intros f1.
  assert (H1 : depsChanged1 (deps1 f1) p = false) by apply pass_deps1.
  rewrite (pass_unfold p f1). cbv zeta. rewrite (afterEffect1_idle _ _ H1).
  destruct (depsChanged2 (deps2 f1) (isOpen p) (documentUrl (state f1))) eqn:E2;
    [| auto].
  cbn [state registry deps1 cleanup1].
  destruct (isOpen p) eqn:Ho; [auto |].
  (* closed: the locator was either cleared by the first pass or never
     qualified for release *)
  assert (Hc : truthy (documentUrl (state f1)) && startsWith (documentUrl (state f1)) "blob:" = false).
  { revert E2. unfold f1. rewrite pass_deps2, Ho, (pass_closed_state _ _ Ho).
    destruct (depsChanged2 (deps2 f) false (documentUrl (state f))) eqn:E; simpl.
    - destruct (truthy (documentUrl (state f)) && startsWith (documentUrl (state f)) "blob:") eqn:C;
        simpl; auto.
    - rewrite String.eqb_refl. discriminate. }
  unfold releaseOnCloseEffect. simpl. rewrite Hc. auto.
Qed.

(** [update] is one pass, up to the remembered dependencies of the second
    effect. *)
Lemma update_pass p f :
  state (update p f) = state (pass p f) /\
  registry (update p f) = registry (pass p f) /\
  deps1 (update p f) = deps1 (pass p f) /\
  cleanup1 (update p f) = cleanup1 (pass p f) /\
  deps2 (update p f) = Some (isOpen p, documentUrl (state (pass p f))).
Proof.
  unfold update. cbn [rerender].
  destruct (pass_pass p f) as (Hs & Hr & Hd & Hc).
  destruct (State_eqb (state f) (state (pass p f))) eqn:E.
  - apply State_eqb_eq in E. repeat split; auto.
    rewrite pass_deps2. now rewrite E.
  - assert (E' : State_eqb (state (pass p f)) (state (pass p (pass p f))) = true)
      by (apply State_eqb_eq; now rewrite Hs).
    rewrite E'. repeat split; auto. apply pass_deps2.
Qed.

(** Re-rendering terminates: two passes reach a fiber that a further pass
    leaves as it is, and more fuel changes nothing. *)
Lemma rerender_settles p f :
  pass p (update p f) = update p f /\
  forall n, rerender (2 + n) p f = update p f.
Proof.
  destruct (update_pass p f) as (Hs & Hr & Hd & Hc & H2).
  split.
  - apply pass_idle.
    + rewrite Hd. apply pass_deps1.
    + now rewrite H2, Hs.
  - intros n. unfold update. cbn [rerender Nat.add].
    destruct (State_eqb (state f) (state (pass p f))); [reflexivity |].
    destruct (pass_pass p f) as (Hs' & _).
    assert (E' : State_eqb (state (pass p f)) (state (pass p (pass p f))) = true)
      by (apply State_eqb_eq; now rewrite Hs').
    now rewrite E'.
Qed.

(** ** The modal: normalization *)

Lemma normalize_outcome v m r :
  allocates v = false ->
  fst (normalize v m (detectFileType m) r)
  = fst (normalize v m (detectFileType m) (fresh_registry 0)).
Proof.
  destruct v as [ | | b | n | s | ref | ref bytes | ref [d|] | sref | oref ]; simpl;
    try reflexivity; try discriminate.
  - now destruct (startsWith s "data:").
  - destruct d as [ | | b | n | s | ref' | ref' bytes | ref' d' | sref' | oref' ]; simpl;
      rewrite ?andb_true_r, ?andb_false_r;
      try reflexivity; try discriminate;
      intros H; rewrite ?H; try reflexivity.
    now destruct (truthy s).
Qed.

Lemma outcome_failure_allocates p :
  outcome p = Unsupported \/ outcome p = Thrown -> allocates (mediaFile p) = false.
Proof.
  unfold outcome. destruct (mediaFile p) as [ | | b | n | s | ref | ref bytes | ref [d|] | sref | oref ];
    simpl; try reflexivity; try (intros [H | H]; discriminate).
  destruct d as [ | | b | n | s | ref' | ref' bytes | ref' d' | sref' | oref' ]; simpl; try reflexivity;
    try (intros [H | H]; discriminate).
  - destruct b; simpl; [intros [H | H]; discriminate | reflexivity].
  - destruct (Z.eqb n 0); simpl; [reflexivity | intros [H | H]; discriminate].
Qed.

(** Without a call to [URL.createObjectURL] the registry is untouched. *)
Lemma normalize_registry v m k r :
  allocates v = false -> snd (normalize v m k r) = r.
Proof.
  destruct v as [ | | b | n | s | ref | ref bytes | ref [d|] | sref | oref ]; simpl;
    try reflexivity; try discriminate.
  - now destruct (startsWith s "data:").
  - destruct d as [ | | b | n | s | ref' | ref' bytes | ref' d' | sref' | oref' ]; simpl;
      rewrite ?andb_true_r, ?andb_false_r;
      try reflexivity; try discriminate;
      intros H; rewrite ?H; try reflexivity.
    now destruct (truthy s).
Qed.

(** The string branch (lines 93-103). *)
Lemma normalize_string s m r :
  normalize (JString s) m (detectFileType m) r = (Located (spec_string_locator s m), r).
Proof.
  unfold normalize, spec_string_locator. now destruct (startsWith s "data:").
Qed.

(** The effect, when its guard passes. *)
Lemma normalizationEffect_open p s r :
  isOpen p = true -> truthyValue (mediaFile p) = true ->
  normalizationEffect p s r =
    (let k := detectFileType (mimeType p) in
     match fst (normalize (mediaFile p) (mimeType p) k r) with
     | Located url =>
         {| documentUrl := url; isLoading := false; error := ""; fileType := k |}
     | o =>
         {| documentUrl := documentUrl s; isLoading := false;
            error := failureMessage o; fileType := k |}
     end,
     snd (normalize (mediaFile p) (mimeType p) (detectFileType (mimeType p)) r)).
Proof.
  intros Ho Ht. unfold normalizationEffect. rewrite Ho, Ht. cbn [andb].
  destruct (normalize _ _ _ r) as [o r']. cbn [fst snd].
  now destruct o.
Qed.

(** The effect, when its guard fails: nothing happens. *)
Lemma normalizationEffect_skipped p s r :
  truthyValue (mediaFile p) && isOpen p = false -> normalizationEffect p s r = (s, r).
Proof. intros H. unfold normalizationEffect. now rewrite H. Qed.

(** A render of the open modal with new dependencies ends in the state
    the first effect leaves. *)
Lemma update_open_state p f :
  isOpen p = true -> depsChanged1 (deps1 f) p = true ->
  state (update p f) =
    fst (normalizationEffect p (state f)
           match cleanup1 f with
           | Some captured => cleanup captured (registry f)
           | None => registry f
           end).
Proof.
  intros Ho Hd.
  destruct (update_pass p f) as (-> & _).
  destruct (pass_open p f Ho) as (-> & _).
  unfold afterEffect1. now rewrite Hd.
Qed.

Lemma update_open_failure p f :
  isOpen p = true -> truthyValue (mediaFile p) = true ->
  depsChanged1 (deps1 f) p = true ->
  outcome p = Unsupported \/ outcome p = Thrown ->
  state (update p f) =
    {| documentUrl := documentUrl (state f); isLoading := false;
       error := failureMessage (outcome p); fileType := detectFileType (mimeType p) |}.
Proof.
  intros Ho Ht Hd Hf.
  rewrite (update_open_state _ _ Ho Hd), (normalizationEffect_open _ _ _ Ho Ht).
  cbn [fst]. rewrite (normalize_outcome _ _ _ (outcome_failure_allocates _ Hf)).
  fold (outcome p). now destruct Hf as [-> | ->].
Qed.

Lemma no_branch_shape_outcome v m :
  no_branch_shape v = true ->
  outcome {| isOpen := true; mediaFile := v; mimeType := m |} = Unsupported.
Proof.
  unfold outcome.
  destruct v as [ | | b | n | s | ref | ref bytes | ref [d|] | sref | oref ]; simpl;
    try reflexivity; try discriminate.
  destruct d; simpl; try reflexivity; discriminate.
Qed.

(** C4, as amended. For every non-empty string payload given to the open
    modal, the stored locator is the payload itself when it begins with
    "data:", and otherwise "data:" followed by the resolved MIME type,
    ";base64," and the payload.  (The empty string is falsy and the effect
    skips it.) *)
Theorem string_payload_locator (s : string) (m : option string) (f : Fiber) :
  s <> "" ->
  let p := {| isOpen := true; mediaFile := JString s; mimeType := m |} in
  depsChanged1 (deps1 f) p = true ->
  documentUrl (state (update p f)) =
    if startsWith s "data:" then s
    else "data:" +:+ getMimeType (FileType_name (detectFileType m)) m +:+ ";base64," +:+ s.
Proof.
  intros Hs p Hd.
  rewrite (update_open_state p f eq_refl Hd).
  rewrite normalizationEffect_open; [| reflexivity | now apply truthy_spec].
  subst p. cbv zeta. cbn [mediaFile mimeType]. rewrite normalize_string. reflexivity.
Qed.

(** The example of the specification: "Zm9v" with the hint "image/png". *)
Lemma string_payload_locator_witness :
  documentUrl (state (mount {| isOpen := true; mediaFile := JString "Zm9v";
                               mimeType := Some "image/png" |} 0))
  = "data:image/png;base64,Zm9v".
Proof.
  apply (string_payload_locator "Zm9v" (Some "image/png") (unmounted (fresh_registry 0)));
    [discriminate | reflexivity].
Defined.

(** C4, as stated, fails: the empty string is a string payload, and the
    modal opened on it stores no locator at all. *)
Lemma string_payload_empty_counterexample :
  ~ (forall (s : string) (m : option string),
        documentUrl (state (mount {| isOpen := true; mediaFile := JString s;
                                     mimeType := m |} 0))
        = spec_string_locator s m).
Proof.
  intros H. specialize (H "" None). vm_compute in H. discriminate.
Qed.

(** C8, as amended. For every truthy payload of none of the four shapes,
    given to the open modal, normalization ends in the unsupported-format
    error; the error is stored, the spinner is off and the modal shows the
    error display.  An exception raised while the payload is read is caught
    in the same way.  (A falsy payload is skipped by the guard of the
    effect, and no error is set.) *)
Theorem unsupported_payload_surfaces (v : JSValue) (m : option string) (f : Fiber) :
  truthyValue v = true ->
  let p := {| isOpen := true; mediaFile := v; mimeType := m |} in
  depsChanged1 (deps1 f) p = true ->
  let s' := state (update p f) in
  let download := if truthy (documentUrl (state f))
                  then Some (documentUrl (state f)) else None in
  (no_branch_shape v = true ->
     outcome p = Unsupported /\
     error s' = "Unsupported media file format" /\
     body (render s') = ErrorDisplay "Unsupported media file format" download) /\
  (outcome p = Thrown ->
     error s' = "Failed to load document" /\
     body (render s') = ErrorDisplay "Failed to load document" download).
Proof.
  intros Ht p Hd s' download. split.
  - intros Hshape.
    assert (Ho : outcome p = Unsupported) by now apply no_branch_shape_outcome.
    unfold s'. rewrite (update_open_failure p f eq_refl Ht Hd (or_introl Ho)), Ho.
    repeat split; reflexivity.
  - intros Ho.
    unfold s'. rewrite (update_open_failure p f eq_refl Ht Hd (or_intror Ho)), Ho.
    repeat split; reflexivity.
Qed.

Lemma unsupported_payload_surfaces_witness :
  let s' := state (mount {| isOpen := true; mediaFile := JNumber 42; mimeType := None |} 0) in
  error s' = "Unsupported media file format" /\
  body (render s') = ErrorDisplay "Unsupported media file format" None.
Proof.
  apply (unsupported_payload_surfaces (JNumber 42) None (unmounted (fresh_registry 0))
           eq_refl eq_refl).
  reflexivity.
Defined.

(** C8, as stated, fails: the number 0 has none of the four shapes, and
    the modal opened on it reports no error. *)
Lemma unsupported_payload_falsy_counterexample :
  ~ (forall (v : JSValue) (m : option string),
        no_branch_shape v = true ->
        error (state (mount {| isOpen := true; mediaFile := v; mimeType := m |} 0))
        = "Unsupported media file format").
Proof.
  intros H. specialize (H (JNumber 0) None eq_refl). vm_compute in H. discriminate.
Qed.

(** C10. When the open modal is given a new payload whose normalization
    fails (the unsupported branch or a caught exception), [documentUrl]
    keeps the value it had, an error message is stored, and the error
    display offers that earlier locator for download (when there is one). *)
Theorem failed_normalization_keeps_locator (p : Props) (f : Fiber) :
  isOpen p = true -> truthyValue (mediaFile p) = true ->
  depsChanged1 (deps1 f) p = true ->
  outcome p = Unsupported \/ outcome p = Thrown ->
  let s' := state (update p f) in
  documentUrl s' = documentUrl (state f) /\
  error s' = failureMessage (outcome p) /\
  body (render s') =
    ErrorDisplay (failureMessage (outcome p))
      (if truthy (documentUrl (state f)) then Some (documentUrl (state f)) else None) /\
  footerDownload (render s') = None.
Proof.
  intros Ho Ht Hd Hf s'. unfold s'.
  rewrite (update_open_failure p f Ho Ht Hd Hf).
  destruct Hf as [-> | ->]; repeat split; try reflexivity;
    unfold render; cbn; now rewrite andb_false_r.
Qed.

(** A base64 image is shown, then a number arrives as payload: the error
    display offers the image's data URI. *)
Lemma failed_normalization_keeps_locator_witness :
  let f := mount {| isOpen := true; mediaFile := JString "Zm9v";
                    mimeType := Some "image/png" |} 0 in
  let p := {| isOpen := true; mediaFile := JNumber 42; mimeType := Some "image/png" |} in
  documentUrl (state (update p f)) = "data:image/png;base64,Zm9v" /\
  body (render (state (update p f))) =
    ErrorDisplay "Unsupported media file format" (Some "data:image/png;base64,Zm9v").
Proof.
  intros f p.
  destruct (failed_normalization_keeps_locator p f eq_refl eq_refl eq_refl
              (or_introl eq_refl)) as (H1 & _ & H3 & _).
  split; [exact H1 | exact H3].
Defined.

(** ** The modal: object-URL locators *)

(** *** Locators and the registry *)

Lemma blob_url_blobby k : truthy (blob_url k) && startsWith (blob_url k) "blob:" = true.
Proof.
  apply andb_true_iff. split.
  - unfold blob_url. cbv [append truthy]. reflexivity.
  - apply startsWith_spec. now exists (pretty k).
Qed.

Lemma blob_url_inj a b : blob_url a = blob_url b -> a = b.
Proof.
  unfold blob_url. intros H. cbv [append] in H. inversion H as [H'].
  now apply (inj pretty) in H'.
Qed.

Lemma issued_blobby r u : issued r u -> truthy u && startsWith u "blob:" = true.
Proof. intros (k & _ & ->). apply blob_url_blobby. Qed.

Lemma issued_mono r r' u : (next r <= next r')%nat -> issued r u -> issued r' u.
Proof. intros Hle (k & Hk & ->). exists k. split; [lia | reflexivity]. Qed.

Lemma data_not_blob s : startsWith s "data:" = true -> startsWith s "blob:" = false.
Proof.
  intros H. apply startsWith_spec in H. destruct H as [t ->].
  apply startsWith_false. intros [t' H]. cbv [append] in H. discriminate.
Qed.

Lemma cleanup_next c r : next (cleanup c r) = next r.
Proof. unfold cleanup. now destruct (_ && _). Qed.

Lemma cleanup_live c r u :
  (forall v, v ∈ live r -> issued r v) ->
  u ∈ live (cleanup c r) <-> u ∈ live r /\ u <> c.
Proof.
  intros Hi. unfold cleanup.
  destruct (truthy c && startsWith c "blob:") eqn:E; simpl.
  - set_solver.
  - split; [| tauto]. intros Hu. split; [exact Hu |].
    intros ->. apply Hi, issued_blobby in Hu. congruence.
Qed.

(** An allocating payload: the effect stores the registry's next locator. *)
Lemma normalizationEffect_alloc p s r :
  isOpen p = true -> allocates (mediaFile p) = true ->
  normalizationEffect p s r =
    ({| documentUrl := blob_url (next r); isLoading := false; error := "";
        fileType := detectFileType (mimeType p) |},
     {| next := S (next r); live := {[ blob_url (next r) ]} ∪ live r |}).
Proof.
  intros Ho Ha. unfold normalizationEffect. rewrite Ho, andb_true_r.
  destruct (mediaFile p) as [ | | b | n | s0 | ref | ref bytes | ref [d|] | sref | oref ];
    try discriminate; simpl; try reflexivity.
  destruct d as [ | | b | n | s0 | ref' | ref' bytes | ref' d' | sref' | oref' ];
    simpl in Ha; rewrite ?andb_true_r, ?andb_false_r in Ha;
    try discriminate; simpl; rewrite ?Ha; reflexivity.
Qed.

(** Any other run of the effect leaves the registry alone and stores no
    object URL of its own. *)
Lemma normalizationEffect_noalloc p s r :
  isOpen p = false \/ allocates (mediaFile p) = false ->
  snd (normalizationEffect p s r) = r /\
  (startsWith (documentUrl (fst (normalizationEffect p s r))) "blob:" = true ->
   documentUrl (fst (normalizationEffect p s r)) = documentUrl s).
Proof.
  intros H.
  destruct (truthyValue (mediaFile p) && isOpen p) eqn:G.
  - apply andb_true_iff in G. destruct G as [Ht Ho].
    destruct H as [H | Ha]; [congruence |].
    rewrite (normalizationEffect_open _ _ _ Ho Ht). cbn [fst snd].
    split; [now apply normalize_registry |].
    destruct (mediaFile p) as [ | | b | n | s0 | ref | ref bytes | ref [d|] | sref | oref ];
      try discriminate; simpl; try reflexivity.
    + destruct (startsWith s0 "data:") eqn:E; simpl; [| discriminate].
      intros Hb. apply data_not_blob in E. congruence.
    + destruct d as [ | | b | n | s0 | ref' | ref' bytes | ref' d' | sref' | oref' ];
        simpl in Ha; rewrite ?andb_true_r, ?andb_false_r in Ha;
        try discriminate; simpl; rewrite ?Ha; simpl; try reflexivity.
      destruct (truthy s0); simpl; [discriminate | reflexivity].
  - rewrite (normalizationEffect_skipped _ _ _ G). auto.
Qed.

Lemma pass_fields p f :
  let d := documentUrl (state f) in
  let f1 := afterEffect1 p f in
  state (pass p f) = (if releases p f then setDocumentUrl "" (state f1) else state f1) /\
  registry (pass p f) = (if releases p f then revokeObjectURL d (registry f1) else registry f1) /\
  cleanup1 (pass p f) = cleanup1 f1.
Proof.
  intros d f1. subst d f1. rewrite pass_unfold. cbv zeta.
  unfold releases. rewrite (afterEffect1_deps2 p f).
  destruct (depsChanged2 (deps2 f) (isOpen p) (documentUrl (state f))); simpl; [| auto].
  unfold releaseOnCloseEffect.
  destruct (negb (isOpen p) && truthy (documentUrl (state f))
            && startsWith (documentUrl (state f)) "blob:"); auto.
Qed.

Lemma releases_closed p f : releases p f = true -> isOpen p = false.
Proof.
  unfold releases. rewrite !andb_true_iff, negb_true_iff. tauto.
Qed.

Lemma issued_next r r' u : next r = next r' -> issued r u -> issued r' u.
Proof. intros H. apply issued_mono. lia. Qed.

Local Ltac in_pair :=
  first [ apply elem_of_union_l; first [assumption | apply elem_of_singleton; reflexivity]
        | apply elem_of_union_r; first [assumption | apply elem_of_singleton; reflexivity] ].

(** The registry the first effect starts from, once the pending cleanup
    has run: only the stored locator can still be live. *)
Lemma after_cleanup f :
  accounted f ->
  let r1 := match cleanup1 f with
            | Some captured => cleanup captured (registry f)
            | None => registry f
            end in
  next r1 = next (registry f) /\
  forall u, u ∈ live r1 ->
            u = documentUrl (state f) /\ issued r1 u /\ u ∈ live (registry f).
Proof.
  intros [Hlive _ _] r1. subst r1.
  assert (Hi : forall v, v ∈ live (registry f) -> issued (registry f) v)
    by (intros v Hv; now apply Hlive).
  destruct (cleanup1 f) as [c|] eqn:Ec.
  - split; [apply cleanup_next |]. intros u Hu.
    apply (cleanup_live c _ u Hi) in Hu. destruct Hu as [Hu Hne].
    destruct (Hlive u Hu) as [Hiu [-> | Hc]]; [| congruence].
    repeat split; auto. eapply issued_next; [| exact Hiu].
    symmetry. apply cleanup_next.
  - split; [reflexivity |]. intros u Hu.
    destruct (Hlive u Hu) as [Hiu [-> | Hc]]; [auto | discriminate].
Qed.

Lemma pass_accounts p f :
  accounted f ->
  let f' := pass p f in
  (exists c, cleanup1 f' = Some c
             /\ live (registry f') ⊆ {[ documentUrl (state f') ]} ∪ {[ c ]}) /\
  (forall u, u ∈ live (registry f') -> issued (registry f') u) /\
  (startsWith (documentUrl (state f')) "blob:" = true ->
   issued (registry f') (documentUrl (state f'))).
Proof.
  intros Hacc f'. subst f'.
  destruct (pass_fields p f) as (Hs & Hr & Hc). cbv zeta in Hs, Hr, Hc.
  rewrite Hs, Hr, Hc. clear Hs Hr Hc.
  destruct (after_cleanup f Hacc) as [Hn1 Hl1]. cbv zeta in Hn1, Hl1.
  pose proof Hacc as [Hlive Hurl Hcl].
  unfold afterEffect1.
  destruct (depsChanged1 (deps1 f) p) eqn:Hd1; cbn [state registry cleanup1].
  - (* the first effect runs *)
    set (r1 := match cleanup1 f with
               | Some captured => cleanup captured (registry f)
               | None => registry f
               end) in *.
    destruct (isOpen p && allocates (mediaFile p)) eqn:Ha.
    + (* a locator is created; the modal is open, nothing is released *)
      apply andb_true_iff in Ha. destruct Ha as [Ho Ha].
      assert (Hrel : releases p f = false).
      { destruct (releases p f) eqn:E; [| reflexivity].
        apply releases_closed in E. congruence. }
      rewrite Hrel, (normalizationEffect_alloc _ _ _ Ho Ha). cbn [fst snd documentUrl live].
      assert (Hnew : issued {| next := S (next r1);
                                live := {[ blob_url (next r1) ]} ∪ live r1 |}
                       (blob_url (next r1))).
      { exists (next r1). simpl. split; [lia | reflexivity]. }
      split; [| split].
      * exists (documentUrl (state f)). split; [reflexivity |].
        intros u Hu. apply elem_of_union in Hu. destruct Hu as [Hu | Hu].
        -- in_pair.
        -- destruct (Hl1 u Hu) as (-> & _). in_pair.
      * intros u Hu. apply elem_of_union in Hu. destruct Hu as [Hu | Hu].
        -- apply elem_of_singleton in Hu. now subst u.
        -- destruct (Hl1 u Hu) as (_ & Hiu & _).
           eapply issued_mono; [| exact Hiu]. simpl. lia.
      * intros _. exact Hnew.
    + (* no locator is created *)
      assert (Hna : isOpen p = false \/ allocates (mediaFile p) = false)
        by (apply andb_false_iff; exact Ha).
      destruct (normalizationEffect_noalloc p (state f) r1 Hna) as [Hreg Hdoc].
      rewrite Hreg.
      destruct (releases p f) eqn:Hrel; cbn [documentUrl setDocumentUrl live revokeObjectURL].
      * split; [| split].
        -- exists (documentUrl (state f)). split; [reflexivity |].
           intros u Hu. apply elem_of_difference in Hu. destruct Hu as [Hu Hne].
           destruct (Hl1 u Hu) as (-> & _). in_pair.
        -- intros u Hu. apply elem_of_difference in Hu. destruct Hu as [Hu Hne].
           destruct (Hl1 u Hu) as (_ & Hiu & _). exact Hiu.
        -- intros Hb. apply startsWith_spec in Hb. destruct Hb as [t Ht]. discriminate.
      * split; [| split].
        -- exists (documentUrl (state f)). split; [reflexivity |].
           intros u Hu. destruct (Hl1 u Hu) as (-> & _). in_pair.
        -- intros u Hu. now destruct (Hl1 u Hu) as (_ & Hiu & _).
        -- intros Hb. rewrite (Hdoc Hb). rewrite (Hdoc Hb) in Hb.
           eapply issued_next; [| exact (Hurl Hb)]. now symmetry.
  - (* the first effect is idle *)
    destruct Hcl as [Hnone | [c Hc]];
      [rewrite Hnone in Hd1; discriminate |].
    destruct (releases p f) eqn:Hrel; cbn [documentUrl setDocumentUrl live revokeObjectURL].
    + split; [| split].
      * exists c. split; [exact Hc |].
        intros u Hu. apply elem_of_difference in Hu. destruct Hu as [Hu Hne].
        destruct (Hlive u Hu) as [_ [-> | Hcu]];
          [exfalso; apply Hne, elem_of_singleton; reflexivity |].
        rewrite Hc in Hcu. inversion Hcu. in_pair.
      * intros u Hu. apply elem_of_difference in Hu. destruct Hu as [Hu Hne].
        now destruct (Hlive u Hu) as [Hiu _].
      * intros Hb. apply startsWith_spec in Hb. destruct Hb as [t Ht]. discriminate.
    + split; [| split].
      * exists c. split; [exact Hc |].
        intros u Hu. destruct (Hlive u Hu) as [_ [-> | Hcu]]; [in_pair |].
        rewrite Hc in Hcu. inversion Hcu. in_pair.
      * intros u Hu. now destruct (Hlive u Hu) as [Hiu _].
      * exact Hurl.
Qed.

Lemma accounted_settled p f : accounted f -> settled p (update p f).
Proof.
  intros Hacc.
  destruct (update_pass p f) as (Hs & Hr & Hd & Hc & H2).
  destruct (pass_accounts p f Hacc) as (Hcl & Hiss & Hurl). cbv zeta in Hcl, Hiss, Hurl.
  constructor.
  - rewrite Hd. apply pass_deps1.
  - now rewrite H2, Hs.
  - now rewrite Hc, Hr, Hs.
  - now rewrite Hr.
  - now rewrite Hr, Hs.
Qed.

Lemma settled_accounted p f : settled p f -> accounted f.
Proof.
  intros [_ _ (c & Hc & Hsub) Hiss Hurl]. constructor.
  - intros u Hu. split; [now apply Hiss |].
    apply Hsub, elem_of_union in Hu. rewrite !elem_of_singleton in Hu.
    destruct Hu as [-> | ->]; auto.
  - exact Hurl.
  - right. now exists c.
Qed.

Lemma unmounted_accounted n : accounted (unmounted (fresh_registry n)).
Proof.
  constructor; simpl.
  - intros u Hu. now apply not_elem_of_empty in Hu.
  - discriminate.
  - now left.
Qed.

(** Every fiber the parent can produce is settled. *)
Lemma reachable_settled p f : reachable p f -> settled p f.
Proof.
  induction 1 as [p n | q p f _ IH].
  - apply accounted_settled, unmounted_accounted.
  - eapply accounted_settled, settled_accounted, IH.
Qed.

Lemma cleanup_empty c r : live r = ∅ -> cleanup c r = r.
Proof.
  destruct r as [n l]. simpl. intros ->. unfold cleanup.
  destruct (_ && _); [| reflexivity].
  unfold revokeObjectURL. simpl. f_equal.
  apply elem_of_equiv_empty_L. intros u Hu.
  apply elem_of_difference in Hu. destruct Hu as [Hu _].
  now apply not_elem_of_empty in Hu.
Qed.

Lemma depsChanged1_toggled prev p p' :
  depsChanged1 prev p = false -> isOpen p <> isOpen p' -> depsChanged1 prev p' = true.
Proof.
  destruct prev as [q|]; [| reflexivity].
  intros H Hne. apply depsChanged1_open in H.
  unfold depsChanged1. apply negb_true_iff.
  destruct (Bool.eqb (isOpen q) (isOpen p')) eqn:E.
  - apply Bool.eqb_prop in E. congruence.
  - now rewrite andb_false_r.
Qed.

(** Closing the modal: whatever was live is released, and a stored object
    URL is cleared. *)
Lemma close_fields q p f :
  settled q f -> isOpen q = true -> isOpen p = false ->
  let fc := update p f in
  let d := documentUrl (state f) in
  state fc = (if truthy d && startsWith d "blob:"
              then setDocumentUrl "" (state f) else state f) /\
  live (registry fc) = ∅ /\ next (registry fc) = next (registry f) /\
  cleanup1 fc = Some d /\ depsChanged1 (deps1 fc) p = false.
Proof.
  intros Hset Hq Hp fc d. subst fc.
  pose proof (settled_accounted _ _ Hset) as Hacc.
  destruct (update_pass p f) as (Hs & Hr & Hd & Hc & _).
  rewrite Hs, Hr, Hd, Hc. clear Hs Hr Hd Hc.
  destruct (pass_fields p f) as (Hs & Hr & Hc). cbv zeta in Hs, Hr, Hc.
  rewrite Hs, Hr, Hc. clear Hs Hr Hc.
  assert (Hd1 : depsChanged1 (deps1 f) p = true).
  { apply (depsChanged1_toggled _ q); [apply Hset | congruence]. }
  assert (Hrel : releases p f = truthy d && startsWith d "blob:").
  { unfold releases. rewrite (settled_deps2 _ _ Hset), Hq, Hp. fold d. reflexivity. }
  destruct (after_cleanup f Hacc) as [Hn1 Hl1]. cbv zeta in Hn1, Hl1.
  unfold afterEffect1. rewrite Hd1. cbn [state registry cleanup1].
  rewrite (normalizationEffect_closed _ _ _ Hp). cbn [fst snd].
  rewrite Hrel. fold d.
  split; [reflexivity |]. split; [| split; [| split]].
  - apply elem_of_equiv_empty_L. intros u.
    destruct (truthy d && startsWith d "blob:") eqn:E.
    + cbn [live revokeObjectURL]. intros Hu.
      apply elem_of_difference in Hu. destruct Hu as [Hu Hne].
      destruct (Hl1 u Hu) as (-> & _). apply Hne, elem_of_singleton. reflexivity.
    + intros Hu. destruct (Hl1 u Hu) as (-> & Hi & _).
      apply issued_blobby in Hi. fold d in Hi. congruence.
  - now destruct (truthy d && startsWith d "blob:").
  - reflexivity.
  - apply pass_deps1.
Qed.

(** C9. Whenever the open modal is closed, every locator of the instance
    that is live is released, and a stored object URL is cleared.
    Reopening runs the normalization effect again on the state the closing
    left; for a payload that needs an object URL it stores one the registry
    has never issued before (so not the released one), and that one alone
    is live. *)
Theorem close_releases_and_reopen_is_fresh (p pClosed : Props) (f : Fiber) :
  reachable p f -> isOpen p = true -> isOpen pClosed = false ->
  let closed := update pClosed f in
  live (registry closed) = ∅ /\
  (startsWith (documentUrl (state f)) "blob:" = true ->
   documentUrl (state closed) = "") /\
  forall pOpen : Props, isOpen pOpen = true ->
    let reopened := update pOpen closed in
    (state reopened, registry reopened)
      = normalizationEffect pOpen (state closed) (registry closed) /\
    (allocates (mediaFile pOpen) = true ->
       documentUrl (state reopened) = blob_url (next (registry f)) /\
       documentUrl (state reopened) <> documentUrl (state f) /\
       ~ issued (registry f) (documentUrl (state reopened)) /\
       live (registry reopened) = {[ documentUrl (state reopened) ]}).
Proof.
  intros Hreach Hp Hc closed.
  pose proof (reachable_settled _ _ Hreach) as Hset.
  destruct (close_fields p pClosed f Hset Hp Hc) as (Hst & Hlive & Hnext & Hcl & Hdeps).
  cbv zeta in Hst, Hlive, Hnext, Hcl, Hdeps. fold closed in Hst, Hlive, Hnext, Hcl, Hdeps.
  split; [exact Hlive |].
  split.
  { intros Hblob.
    assert (Hiss : issued (registry f) (documentUrl (state f)))
      by (apply (settled_url _ _ Hset), Hblob).
    now rewrite Hst, (issued_blobby _ _ Hiss). }
  intros pOpen Ho reopened.
  assert (Hd1 : depsChanged1 (deps1 closed) pOpen = true).
  { apply (depsChanged1_toggled _ pClosed); [exact Hdeps | congruence]. }
  assert (Hre : (state reopened, registry reopened)
                = normalizationEffect pOpen (state closed) (registry closed)).
  { subst reopened.
    destruct (update_pass pOpen closed) as (-> & -> & _).
    destruct (pass_open pOpen closed Ho) as (-> & -> & _).
    unfold afterEffect1. rewrite Hd1, Hcl. cbn [state registry].
    rewrite (cleanup_empty _ _ Hlive).
    now destruct (normalizationEffect pOpen (state closed) (registry closed)). }
  split; [exact Hre |].
  intros Ha. rewrite (normalizationEffect_alloc _ _ _ Ho Ha) in Hre.
  inversion Hre as [[Hs' Hr']]. rewrite Hs', Hr'. cbn [documentUrl live].
  rewrite Hnext, Hlive.
  assert (Hfresh : ~ issued (registry f) (blob_url (next (registry f)))).
  { intros (j & Hj & E). apply blob_url_inj in E. lia. }
  split; [reflexivity |].
  split; [| split].
  - intros E. apply Hfresh. rewrite E. apply (settled_url _ _ Hset).
    rewrite <- E. pose proof (blob_url_blobby (next (registry f))) as Hb.
    apply andb_true_iff in Hb. apply Hb.
  - exact Hfresh.
  - apply union_empty_r_L.
Qed.

(** A buffer is shown, the modal is closed and opened again on the same
    buffer: "blob:0" is released and "blob:1" replaces it. *)
Lemma close_releases_and_reopen_is_fresh_witness :
  let p := {| isOpen := true; mediaFile := JArrayBuffer 1 []; mimeType := None |} in
  let pClosed := {| isOpen := false; mediaFile := JArrayBuffer 1 []; mimeType := None |} in
  documentUrl (state (mount p 0)) = "blob:0" /\
  live (registry (update pClosed (mount p 0))) = ∅ /\
  documentUrl (state (update pClosed (mount p 0))) = "" /\
  documentUrl (state (update p (update pClosed (mount p 0)))) = "blob:1" /\
  live (registry (update p (update pClosed (mount p 0)))) = {[ "blob:1" ]}.
Proof.
  intros p pClosed.
  destruct (close_releases_and_reopen_is_fresh p pClosed (mount p 0)
              (reach_mount p 0) eq_refl eq_refl) as (H1 & H2' & H3).
  pose proof (H2' eq_refl) as H2.
  destruct (H3 p eq_refl) as (_ & H4).
  destruct (H4 eq_refl) as (H5 & _ & _ & H6).
  split; [reflexivity |].
  split; [exact H1 |]. split; [exact H2 |].
  split; [exact H5 |]. rewrite H6, H5. reflexivity.
Defined.

(** *** The stale cleanup *)

(** C1 does not hold of the code. The cleanup closure of the first effect
    reads the [documentUrl] of the render that created it, which is the
    locator before the one that effect run stored.  After two binary
    buffers in succession, both locators are live: the first has not been
    released when the second is created, nor afterwards. *)
Theorem two_buffers_leave_two_live_locators :
  let pA := {| isOpen := true; mediaFile := JArrayBuffer 1 []; mimeType := None |} in
  let pB := {| isOpen := true; mediaFile := JArrayBuffer 2 []; mimeType := None |} in
  let f1 := mount pA 0 in
  let f2 := update pB f1 in
  documentUrl (state f1) = "blob:0" /\ live (registry f1) = {[ "blob:0" ]} /\
  cleanup1 f1 = Some "" /\
  documentUrl (state f2) = "blob:1" /\
  live (registry f2) = {[ "blob:0"; "blob:1" ]} /\
  size (live (registry f2)) = 2%nat.
Proof. vm_compute. repeat split; reflexivity. Qed.

(** Unmounting the open modal runs the same stale cleanup and leaves the
    displayed locator live. *)
Lemma unmount_leaves_locator_live :
  let pA := {| isOpen := true; mediaFile := JArrayBuffer 1 []; mimeType := None |} in
  live (unmount (mount pA 0)) = {[ "blob:0" ]}.
Proof. vm_compute. reflexivity. Qed.

(** The same leak in general: any two payloads that each need an object
    URL, shown one after the other by the open modal, leave both locators
    live. *)
Lemma successive_allocations_leak (pA pB : Props) (n : nat) :
  isOpen pA = true -> allocates (mediaFile pA) = true ->
  isOpen pB = true -> allocates (mediaFile pB) = true ->
  depsChanged1 (Some pA) pB = true ->
  let f2 := update pB (mount pA n) in
  documentUrl (state f2) = blob_url (S n) /\
  live (registry f2) = {[ blob_url (S n) ]} ∪ {[ blob_url n ]} /\
  blob_url n <> blob_url (S n).
Proof.
  intros HoA HaA HoB HaB Hch f2.
  assert (Hm : state (mount pA n) =
               {| documentUrl := blob_url n; isLoading := false; error := "";
                  fileType := detectFileType (mimeType pA) |} /\
               registry (mount pA n) = {| next := S n; live := {[ blob_url n ]} |} /\
               deps1 (mount pA n) = Some pA /\ cleanup1 (mount pA n) = Some "").
  { unfold mount.
    destruct (update_pass pA (unmounted (fresh_registry n))) as (-> & -> & -> & -> & _).
    destruct (pass_open pA (unmounted (fresh_registry n)) HoA) as (-> & -> & ->).
    destruct (pass_fields pA (unmounted (fresh_registry n))) as (_ & _ & Hc).
    cbv zeta in Hc.
    assert (Hd : deps1 (pass pA (unmounted (fresh_registry n))) = Some pA).
    { rewrite pass_unfold. cbv zeta. now destruct (depsChanged2 _ _ _). }
    rewrite Hd. unfold afterEffect1. cbn [deps1 unmounted depsChanged1 cleanup1 state registry].
    rewrite (normalizationEffect_alloc _ _ _ HoA HaA). cbn [fst snd fresh_registry next live].
    repeat split. f_equal. apply union_empty_r_L. }
  destruct Hm as (Hs & Hr & Hd & Hc).
  subst f2.
  destruct (update_pass pB (mount pA n)) as (-> & -> & _).
  destruct (pass_open pB (mount pA n) HoB) as (-> & -> & _).
  unfold afterEffect1. rewrite Hd, Hch, Hc, Hr. cbn [state registry].
  unfold cleanup. cbn [truthy andb].
  rewrite (normalizationEffect_alloc _ _ _ HoB HaB). cbn [fst snd next live documentUrl].
  repeat split.
  intros E. apply blob_url_inj in E. lia.
Qed.

(** * Further properties *)

(** ** The zoom viewer: buttons, wheel and drag *)

Section ZoomView.

Import Zoom.
Local Open Scope Q_scope.

Lemma run_in_bounds batches : in_bounds (run batches).
Proof. unfold run. apply fold_commit_in_bounds, mounted_in_bounds. Qed.

Lemma step_scale r e : scale (step r e) = scale (dispatch r e r).
Proof. unfold step. now rewrite commit_scale. Qed.

(** Reachable scales are [k/4] with [k] between 2 and 20. *)
Lemma run_quarter_steps batches :
  exists k : Z, scale (run batches) == k # 4 /\ (2 <= k <= 20)%Z.
Proof.
  destruct (zoom_scale_quarters batches) as [k Hk].
  destruct (run_in_bounds batches) as [Hlo Hhi].
  exists k. split; [exact Hk |].
  rewrite Hk in Hlo, Hhi. unfold minScale, maxScale, Qle in Hlo, Hhi. simpl in Hlo, Hhi.
  lia.
Qed.

Lemma zoomIn_noop_iff s :
  in_bounds s -> (zoomInDisabled s = true <-> scale (handleZoomIn s) == scale s).
Proof.
  unfold in_bounds, zoomInDisabled, minScale, maxScale. intros [Hlo Hhi].
  rewrite Qle_bool_iff. simpl. unfold scaleStep, maxScale.
  destruct (Q.min_spec (scale s + (1 # 4)) 5) as [[H E] | [H E]]; rewrite E; split; intros; lra.
Qed.

Lemma zoomOut_noop_iff s :
  in_bounds s -> (zoomOutDisabled s = true <-> scale (handleZoomOut s) == scale s).
Proof.
  unfold in_bounds, zoomOutDisabled, minScale, maxScale. intros [Hlo Hhi].
  rewrite Qle_bool_iff. simpl. unfold scaleStep, minScale.
  destruct (Q.max_spec (scale s - (1 # 4)) (1 # 2)) as [[H E] | [H E]]; rewrite E; split; intros; lra.
Qed.

(** X17. Each of the three buttons is disabled exactly in the states in which
    its handler would leave scale and offset as they are. *)
Theorem zoom_buttons_disabled_iff_noop (batches : list (list Event)) :
  let s := run batches in
  (zoomInDisabled s = true <-> scale (handleZoomIn s) == scale s) /\
  (zoomOutDisabled s = true <-> scale (handleZoomOut s) == scale s) /\
  (resetDisabled s = true <->
     scale (handleReset s) == scale s
     /\ x (position (handleReset s)) == x (position s)
     /\ y (position (handleReset s)) == y (position s)).
Proof.
  intros s. pose proof (run_in_bounds batches) as Hb. fold s in Hb.
  split; [now apply zoomIn_noop_iff |].
  split; [now apply zoomOut_noop_iff |].
  unfold resetDisabled. rewrite !andb_true_iff, !Qeq_bool_iff. simpl.
  split; intros [[H1 H2] H3] || intros (H1 & H2 & H3); repeat split;
    try (now symmetry); assumption.
Qed.

(** X15. Zooming in and back out, or out and back in, returns to the scale one
    started from, unless the first click was on a disabled button. *)
Theorem zoom_in_out_round_trip (batches : list (list Event)) :
  let s := run batches in
  (zoomInDisabled s = false ->
   scale (step (step s ZoomInClick) ZoomOutClick) == scale s) /\
  (zoomOutDisabled s = false ->
   scale (step (step s ZoomOutClick) ZoomInClick) == scale s).
Proof.
  intros s. destruct (run_quarter_steps batches) as (k & Hk & Hk2). fold s in Hk.
  rewrite !step_scale. cbn [dispatch handleZoomIn handleZoomOut setScale scale].
  rewrite !step_scale. cbn [dispatch handleZoomIn handleZoomOut setScale scale].
  unfold zoomInDisabled, zoomOutDisabled, scaleStep, minScale, maxScale.
  split; intros Hd.
  - assert (Hlt : (k < 20)%Z).
    { destruct (Z_lt_le_dec k 20) as [H | H]; [exact H |].
      assert (Hle : 5 <= scale s) by (rewrite Hk; unfold Qle; simpl; lia).
      apply Qle_bool_iff in Hle. congruence. }
    assert (Hup : scale s + (1 # 4) <= 5).
    { rewrite Hk. unfold Qle, Qplus. simpl. lia. }
    assert (Hlo : 1 # 2 <= scale s).
    { rewrite Hk. unfold Qle. simpl. lia. }
    rewrite (Q.min_l _ _ Hup). rewrite Q.max_l; lra.
  - assert (Hgt : (2 < k)%Z).
    { destruct (Z_lt_le_dec 2 k) as [H | H]; [exact H |].
      assert (Hle : scale s <= 1 # 2) by (rewrite Hk; unfold Qle; simpl; lia).
      apply Qle_bool_iff in Hle. congruence. }
    assert (Hdn : 1 # 2 <= scale s - (1 # 4)).
    { rewrite Hk. unfold Qle, Qminus, Qplus, Qopp. simpl. lia. }
    assert (Hhi : scale s <= 5).
    { rewrite Hk. unfold Qle. simpl. lia. }
    rewrite (Q.max_l _ _ Hdn). rewrite Q.min_l; lra.
Qed.

Lemma zoom_in_out_round_trip_witness :
  scale (step (step (run [[ZoomInClick]]) ZoomInClick) ZoomOutClick)
  == scale (run [[ZoomInClick]]).
Proof.
  apply (proj1 (zoom_in_out_round_trip [[ZoomInClick]])). reflexivity.
Defined.

(** X16. A wheel turn acts on the scale as a click does: zoom-out for a
    positive [deltaY], zoom-in for every other [deltaY], zero included. *)
Theorem wheel_acts_as_button (batches : list (list Event)) (deltaY : Q) :
  let s := run batches in
  scale (step s (Wheel deltaY))
  == scale (step s (if gtb deltaY 0 then ZoomOutClick else ZoomInClick)).
Proof.
  intros s. destruct (run_in_bounds batches) as [Hlo Hhi]. fold s in Hlo, Hhi.
  unfold minScale, maxScale in Hlo, Hhi.
  rewrite !step_scale. unfold dispatch at 1, handleWheel.
  destruct (gtb deltaY 0); cbn [dispatch handleZoomIn handleZoomOut setScale scale];
    unfold scaleStep, minScale, maxScale.
  - rewrite (Q.min_r 5 (scale s + - (1 # 4))) by lra.
    rewrite Q.max_comm. reflexivity.
  - rewrite Q.max_r.
    + apply Q.min_comm.
    + apply Q.min_glb; lra.
Qed.

Lemma runEvents_snoc events e :
  runEvents (events ++ [e])%list = step (runEvents events) e.
Proof. unfold runEvents. now rewrite fold_left_app. Qed.

Lemma repeat_snoc {A} (a : A) n : repeat a (S n) = (repeat a n ++ [a])%list.
Proof. induction n as [|n IH]; simpl; [reflexivity |]. now rewrite <- IH. Qed.

Lemma Qmin_step a : Qmin (Qmin a 5 + (1 # 4)) 5 == Qmin (a + (1 # 4)) 5.
Proof.
  destruct (Q.min_spec a 5) as [[H E] | [H E]]; rewrite E; [reflexivity |].
  rewrite !Q.min_r by lra. reflexivity.
Qed.

Lemma Qmax_step a :
  Qmax (Qmax a (1 # 2) - (1 # 4)) (1 # 2) == Qmax (a - (1 # 4)) (1 # 2).
Proof.
  destruct (Q.max_spec a (1 # 2)) as [[H E] | [H E]]; rewrite E.
  - rewrite !Q.max_r by lra. reflexivity.
  - reflexivity.
Qed.

(** X14. The scale after [n] clicks on one zoom button, starting from the first
    render: one quarter per click until the bound is met, and the bound
    from then on (16 clicks in, 2 clicks out). *)
Theorem zoom_clicks_closed_form (n : nat) :
  scale (runEvents (repeat ZoomInClick n))
    == Qmin (1 + inject_Z (Z.of_nat n) * scaleStep) maxScale /\
  scale (runEvents (repeat ZoomOutClick n))
    == Qmax (1 - inject_Z (Z.of_nat n) * scaleStep) minScale.
Proof.
  unfold scaleStep, minScale, maxScale.
  induction n as [|n [IHin IHout]].
  - split; reflexivity.
  - assert (Hn : inject_Z (Z.of_nat (S n)) == inject_Z (Z.of_nat n) + 1).
    { rewrite Nat2Z.inj_succ. unfold Z.succ. now rewrite inject_Z_plus. }
    rewrite !repeat_snoc, !runEvents_snoc, !step_scale.
    cbn [dispatch handleZoomIn handleZoomOut setScale scale].
    unfold scaleStep, minScale, maxScale. rewrite IHin, IHout, Hn.
    set (a := inject_Z (Z.of_nat n)). split.
    + rewrite Qmin_step. apply Q.min_compat; [ring | reflexivity].
    + rewrite Qmax_step. apply Q.max_compat; [ring | reflexivity].
Qed.

(** A pointer event that leaves the scale alone is followed by a render
    that runs no effect. *)
Lemma step_same_scale r e :
  scale (dispatch r e r) = scale r -> step r e = dispatch r e r.
Proof.
  intros H. unfold step, commit. cbn [fold_left].
  unfold scaleChanged. now rewrite H, Qeq_bool_refl.
Qed.

(** X18. While the button is held at a scale above 1, the state depends on
    the anchor and on the latest pointer position only: the moves in
    between leave no trace, the scale stays and the drag stays on.  When
    the offset at pointer-down, the anchor and the latest position are
    integers (of moderate size), the offset is the offset at pointer-down
    plus the displacement of the latest position from the anchor. *)
Theorem drag_follows_last_point (r : ZoomState) (ax ay : Q) (moves : list Point) (b : Point) :
  1 < scale r ->
  let s := drag r ax ay (moves ++ [b])%list in
  s = drag r ax ay [b] /\ scale s = scale r /\ isDragging s = true /\
  (forall px py az aw bx bw : Z,
      exactInteger (x (position r)) -> exactInteger (y (position r)) ->
      exactInteger ax -> exactInteger ay -> exactInteger (x b) -> exactInteger (y b) ->
      x (position r) = inject_Z px -> y (position r) = inject_Z py ->
      ax = inject_Z az -> ay = inject_Z aw ->
      x b = inject_Z bx -> y b = inject_Z bw ->
      x (position s) == inject_Z (px + (bx - az)) /\
      y (position s) == inject_Z (py + (bw - aw))).
Proof.
  intros Hr s. apply gtb_spec in Hr.
  set (held := fun t : ZoomState =>
                 scale t = scale r /\ isDragging t = true
                 /\ dragStart t = {| x := ax; y := ay |}
                 /\ lastPosition t = position r).
  set (final := {| scale := scale r;
                   position := {| x := x (position r) + (x b - ax);
                                  y := y (position r) + (y b - ay) |};
                   isDragging := true;
                   dragStart := {| x := ax; y := ay |};
                   lastPosition := position r |}).
  assert (Hdown : held (step r (MouseDown ax ay))).
  { rewrite step_same_scale; cbn [dispatch]; unfold handleMouseDown; rewrite Hr;
      repeat split. }
  assert (Hmove : forall t m, held t -> held (step t (MouseMove (x m) (y m)))).
  { intros t m (Hs & Hd & Ha & Hl).
    assert (Hg : isDragging t && gtb (scale t) 1 = true) by now rewrite Hd, Hs, Hr.
    rewrite step_same_scale; cbn [dispatch]; unfold handleMouseMove; rewrite Hg;
      [| reflexivity].
    repeat split; assumption. }
  assert (Hlast : forall t, held t -> step t (MouseMove (x b) (y b)) = final).
  { intros t (Hs & Hd & Ha & Hl).
    assert (Hg : isDragging t && gtb (scale t) 1 = true) by now rewrite Hd, Hs, Hr.
    rewrite step_same_scale; cbn [dispatch]; unfold handleMouseMove; rewrite Hg;
      [| reflexivity].
    unfold setPosition, final. rewrite Hs, Hd, Ha, Hl. reflexivity. }
  assert (Hfold : forall ms t, held t ->
            held (fold_left step (map (fun m => MouseMove (x m) (y m)) ms) t)).
  { induction ms as [|m ms IH]; intros t Ht; cbn [map fold_left]; [exact Ht |].
    apply IH. now apply Hmove. }
  assert (Hs : s = final).
  { subst s. unfold drag. rewrite map_app, fold_left_app. cbn [map fold_left].
    apply Hlast, Hfold, Hdown. }
  assert (Hone : drag r ax ay [b] = final).
  { unfold drag. cbn [map fold_left]. now apply Hlast. }
  rewrite Hs, Hone.
  split; [reflexivity |]. split; [reflexivity |]. split; [reflexivity |].
  intros px py az aw bx bw _ _ _ _ _ _ Hpx Hpy Hax Hay Hbx Hby.
  cbn [final position x y]. rewrite Hpx, Hpy, Hax, Hay, Hbx, Hby.
  unfold Z.sub. rewrite !inject_Z_plus, !inject_Z_opp. split; reflexivity.
Qed.

Lemma drag_follows_last_point_witness :
  let r := runEvents [ZoomInClick] in
  drag r 3 4 [mkPoint 50 60; mkPoint 13 24] = drag r 3 4 [mkPoint 13 24] /\
  x (position (drag r 3 4 [mkPoint 50 60; mkPoint 13 24])) == 10.
Proof.
  intros r.
  assert (Hex : forall z : Z, (Z.abs z <= 2 ^ 51)%Z -> exactInteger (inject_Z z))
    by (intros z Hz; now exists z).
  destruct (drag_follows_last_point r 3 4 [mkPoint 50 60] (mkPoint 13 24) eq_refl)
    as (H1 & _ & _ & H4).
  split; [exact H1 |].
  apply (H4 0 0 3 4 13 24)%Z; try reflexivity; apply Hex; vm_compute; discriminate.
Defined.

(** X19. Pointer-up, pointer-leave and touch-end end the drag whatever the
    state: the offset and the scale stay, and the pointer-moves that follow
    change nothing. *)
Theorem release_ends_drag (r : ZoomState) (e e' : Event) :
  pointerRelease e = true -> pointerMove e' = true ->
  isDragging (step r e) = false /\
  position (step r e) = position r /\ scale (step r e) = scale r /\
  step (step r e) e' = step r e.
Proof.
  intros He He'.
  assert (Hs : step r e = setIsDragging false r).
  { destruct e; try discriminate; now rewrite step_same_scale. }
  rewrite Hs. repeat split.
  assert (Hd : dispatch (setIsDragging false r) e' (setIsDragging false r)
               = setIsDragging false r).
  { destruct e' as [ | | | | cx cy | | | | | ts | ]; try discriminate; cbn [dispatch].
    - reflexivity.
    - unfold handleTouchMove. destruct ts as [|t [|t' ts]]; reflexivity. }
  rewrite step_same_scale; now rewrite Hd.
Qed.

Lemma release_ends_drag_witness :
  let held := drag (runEvents [ZoomInClick]) 3 4 [mkPoint 13 24] in
  isDragging held = true /\
  step (step held MouseUp) (MouseMove 100 100) = step held MouseUp.
Proof.
  split; [reflexivity |].
  apply (release_ends_drag (drag (runEvents [ZoomInClick]) 3 4 [mkPoint 13 24])
           MouseUp (MouseMove 100 100)); reflexivity.
Defined.

(** X20. A touch event with no finger or with several fingers on the screen
    neither starts a drag nor pans. *)
Theorem multi_touch_ignored (r s : ZoomState) (touches : list Point) :
  length touches <> 1%nat ->
  dispatch r (TouchStart touches) s = s /\ dispatch r (TouchMove touches) s = s.
Proof.
  intros H. cbn [dispatch]. unfold handleTouchStart, handleTouchMove.
  destruct touches as [|t [|t' ts]]; [auto | | auto].
  now contradiction H.
Qed.

Lemma multi_touch_ignored_witness :
  let r := runEvents [ZoomInClick] in
  dispatch r (TouchStart [mkPoint 1 1; mkPoint 9 9]) r = r.
Proof.
  apply (multi_touch_ignored (runEvents [ZoomInClick]) (runEvents [ZoomInClick])
           [mkPoint 1 1; mkPoint 9 9]).
  discriminate.
Defined.

Lemma Qfloor_half (z : Z) : Qfloor (inject_Z z + (1 # 2)) = z.
Proof.
  apply Z.le_antisymm.
  - apply Z.lt_succ_r. rewrite Zlt_Qlt.
    apply Qle_lt_trans with (inject_Z z + (1 # 2)); [apply Qfloor_le |].
    unfold Z.succ. rewrite inject_Z_plus. change (inject_Z 1) with 1.
    generalize (inject_Z z). intros q. lra.
  - rewrite <- (Qfloor_Z z) at 1. apply Qfloor_resp_le.
    generalize (inject_Z z). intros q. lra.
Qed.

(** X21. The percentage shown is exact: in every reachable state it equals
    100 times the scale (no rounding takes place), a multiple of 25
    between 50 and 500. *)
Theorem percent_label_exact (batches : list (list Event)) :
  let s := run batches in
  inject_Z (percentLabel s) == scale s * 100 /\
  (50 <= percentLabel s <= 500)%Z /\
  exists k : Z, percentLabel s = (25 * k)%Z.
Proof.
  intros s. destruct (run_quarter_steps batches) as (k & Hk & Hk2). fold s in Hk.
  assert (Hp : percentLabel s = (25 * k)%Z).
  { unfold percentLabel, Math_round.
    assert (E : scale s * 100 + (1 # 2) == inject_Z (25 * k) + (1 # 2)).
    { rewrite Hk. unfold Qeq, Qplus, Qmult, inject_Z. simpl. lia. }
    rewrite E. apply Qfloor_half. }
  rewrite Hp. split; [| split; [lia | now exists k]].
  rewrite Hk. unfold Qeq, Qmult, inject_Z. simpl. lia.
Qed.

(** X22. Once the effects of a render have run, the scale is at least 0.5,
    so the transform never divides by zero; and whenever the scale is 1,
    as it is after a click on Reset, the transform is the identity: factor
    1 and translation (0,0). *)
Theorem transform_translation (batches : list (list Event)) :
  let s := run batches in
  ~ scale s == 0 /\
  (scale s == 1 ->
   factor (transform s) == 1
   /\ translateX (transform s) == 0 /\ translateY (transform s) == 0) /\
  factor (transform (step s ResetClick)) == 1 /\
  translateX (transform (step s ResetClick)) == 0 /\
  translateY (transform (step s ResetClick)) == 0.
Proof.
  intros s. destruct (run_in_bounds batches) as [Hlo _]. fold s in Hlo.
  unfold minScale in Hlo.
  assert (Hid : forall t, scale t == 1 -> position t = origin ->
                          factor (transform t) == 1
                          /\ translateX (transform t) == 0
                          /\ translateY (transform t) == 0).
  { intros t Ht Hp. cbn [transform factor translateX translateY].
    rewrite Hp. cbn [origin x y]. rewrite Ht. repeat split; reflexivity. }
  split; [intros E; lra |]. split.
  - intros Hone. apply Hid; [exact Hone |]. now apply (run_centered batches).
  - assert (Hr : step s ResetClick = run (batches ++ [[ResetClick]])%list).
    { unfold s, run, step. now rewrite fold_left_app. }
    assert (Hsc : scale (step s ResetClick) == 1)
      by (rewrite step_scale; reflexivity).
    apply Hid; [exact Hsc |].
    rewrite Hr in *. now apply (run_centered (batches ++ [[ResetClick]])%list).
Qed.

(** X13. Every scale the viewer reaches is a whole number of quarter steps,
    between 2 and 20 of them: the clamping never produces a value off the
    grid on which the buttons move. *)
Theorem zoom_scale_on_quarter_grid (batches : list (list Event)) :
  exists k : Z, scale (run batches) == k # 4 /\ (2 <= k <= 20)%Z.
Proof. exact (run_quarter_steps batches). Qed.

End ZoomView.

(** ** The modal: renders, locators and the view *)

(** X1. Rendering again with the props of the last render changes nothing: no
    effect runs, no locator is created or released. *)
Theorem update_idempotent (p : Props) (f : Fiber) :
  update p (update p f) = update p f.
Proof.
  destruct (rerender_settles p f) as [Hpass _].
  unfold update at 1. cbn [rerender]. rewrite Hpass.
  assert (E : State_eqb (state (update p f)) (state (update p f)) = true)
    by now apply State_eqb_eq.
  now rewrite E.
Qed.

(** X3. However the parent renders the modal, at most two object URLs of the
    instance are live between renders: the stored one and the one the
    pending cleanup captured. *)
Theorem live_locators_at_most_two (p : Props) (f : Fiber) :
  reachable p f ->
  (size (live (registry f)) <= 2)%nat /\
  exists c, cleanup1 f = Some c
            /\ live (registry f) ⊆ {[ documentUrl (state f) ]} ∪ {[ c ]}.
Proof.
  intros Hr. destruct (reachable_settled _ _ Hr) as [_ _ (c & Hc & Hsub) _ _].
  split; [| now exists c].
  apply subseteq_size in Hsub. rewrite size_union_alt, size_singleton in Hsub.
  assert (H1 : (size (({[ c ]} : gset string) ∖ {[ documentUrl (state f) ]}) <= 1)%nat).
  { rewrite <- (size_singleton (C := gset string) c).
    apply subseteq_size, subseteq_difference_l. reflexivity. }
  lia.
Qed.

Lemma live_locators_at_most_two_witness :
  let pA := {| isOpen := true; mediaFile := JArrayBuffer 1 []; mimeType := None |} in
  let pB := {| isOpen := true; mediaFile := JArrayBuffer 2 []; mimeType := None |} in
  let pC := {| isOpen := true; mediaFile := JArrayBuffer 3 []; mimeType := None |} in
  (size (live (registry (update pC (update pB (mount pA 0))))) <= 2)%nat.
Proof.
  intros pA pB pC.
  apply (live_locators_at_most_two pC (update pC (update pB (mount pA 0)))).
  apply (reach_update pB), (reach_update pA), reach_mount.
Defined.

Lemma allocates_truthy v : allocates v = true -> truthyValue v = true.
Proof.
  destruct v as [ | | b | n | s | ref | ref bytes | ref [d|] | sref | oref ]; simpl;
    try discriminate; reflexivity.
Qed.

Lemma cleanup_option_next f :
  next match cleanup1 f with
       | Some captured => cleanup captured (registry f)
       | None => registry f
       end = next (registry f).
Proof. destruct (cleanup1 f); [apply cleanup_next | reflexivity]. Qed.

(** X2. A render creates an object URL exactly when the first effect is due,
    the modal is open and the payload is a [Blob], an [ArrayBuffer] or a
    wrapper whose [data] is truthy, not a string, and fit to be a part of
    a [Blob]; it then creates exactly one.  In particular a closed modal,
    a re-render with unchanged props, a string payload and a wrapper of a
    symbol (for which [new Blob] raises inside the [try]) never create
    one. *)
Theorem update_allocation_count (p : Props) (f : Fiber) :
  next (registry (update p f)) =
    (next (registry f)
     + if depsChanged1 (deps1 f) p && isOpen p && allocates (mediaFile p) then 1 else 0)%nat.
Proof.
  destruct (update_pass p f) as (_ & -> & _).
  destruct (pass_fields p f) as (_ & Hr & _). cbv zeta in Hr. rewrite Hr.
  assert (Hrev : forall b d r, next (if b : bool then revokeObjectURL d r else r) = next r)
    by (intros [] d r; reflexivity).
  rewrite Hrev. unfold afterEffect1.
  destruct (depsChanged1 (deps1 f) p); cbn [andb registry]; [| lia].
  destruct (isOpen p) eqn:Ho; cbn [andb].
  - destruct (allocates (mediaFile p)) eqn:Ha.
    + rewrite (normalizationEffect_alloc _ _ _ Ho Ha). cbn [snd next].
      rewrite cleanup_option_next. lia.
    + destruct (normalizationEffect_noalloc p (state f)
                  match cleanup1 f with
                  | Some captured => cleanup captured (registry f)
                  | None => registry f
                  end (or_intror Ha)) as [-> _].
      rewrite cleanup_option_next. lia.
  - rewrite (normalizationEffect_closed _ _ _ Ho). cbn [snd].
    rewrite cleanup_option_next. lia.
Qed.

Lemma Object_is_truthy a b : Object_is a b = true -> truthyValue a = truthyValue b.
Proof.
  destruct a, b; simpl; try discriminate; try reflexivity; intros H.
  - now apply Bool.eqb_prop in H; subst.
  - now apply Z.eqb_eq in H; subst.
  - now apply String.eqb_eq in H; subst.
Qed.

Lemma option_string_is_eq a b : option_string_is a b = true -> a = b.
Proof.
  destruct a, b; simpl; try discriminate; try reflexivity.
  intros H. now apply String.eqb_eq in H; subst.
Qed.

(** Props that agree with the same remembered dependencies are open or
    closed together, carry payloads of the same truthiness and the same
    MIME hint. *)
Lemma deps_same prev p q :
  depsChanged1 prev p = false -> depsChanged1 prev q = false ->
  isOpen q = isOpen p /\ truthyValue (mediaFile q) = truthyValue (mediaFile p)
  /\ mimeType q = mimeType p.
Proof.
  destruct prev as [d|]; [| discriminate]. unfold depsChanged1.
  rewrite !negb_false_iff, !andb_true_iff.
  intros [[Hm Ho] Ht] [[Hm' Ho'] Ht'].
  apply Bool.eqb_prop in Ho, Ho'. apply option_string_is_eq in Ht, Ht'.
  apply Object_is_truthy in Hm, Hm'. repeat split; congruence.
Qed.

Lemma located_truthy v m k r url :
  truthyValue v = true -> fst (normalize v m k r) = Located url -> truthy url = true.
Proof.
  destruct v as [ | | b | n | s | ref | ref bytes | ref [d|] | sref | oref ]; simpl; try discriminate.
  - intros Hs. destruct (startsWith s "data:"); simpl; intros H; inversion H; subst;
      [exact Hs | reflexivity].
  - intros _ H. inversion H. apply (proj1 (andb_true_iff _ _) (blob_url_blobby _)).
  - intros _ H. inversion H. apply (proj1 (andb_true_iff _ _) (blob_url_blobby _)).
  - intros _. destruct (truthyValue d); [| discriminate].
    destruct d; simpl; intros H; inversion H;
      try apply (proj1 (andb_true_iff _ _) (blob_url_blobby _)); reflexivity.
Qed.

Lemma update_coherent p f :
  isLoading (state f) = false ->
  (depsChanged1 (deps1 f) p = false -> coherent p (state f)) ->
  coherent p (state (update p f)).
Proof.
  intros Hl Hidle.
  destruct (update_pass p f) as (-> & _).
  destruct (pass_fields p f) as (Hs & _). cbv zeta in Hs. rewrite Hs. clear Hs.
  assert (H1 : coherent p (state (afterEffect1 p f))).
  { unfold afterEffect1. destruct (depsChanged1 (deps1 f) p) eqn:Hd; [| now apply Hidle].
    cbn [state].
    set (r := match cleanup1 f with
              | Some captured => cleanup captured (registry f)
              | None => registry f
              end).
    destruct (truthyValue (mediaFile p) && isOpen p) eqn:G.
    - apply andb_true_iff in G. destruct G as [Ht Ho].
      rewrite (normalizationEffect_open _ _ _ Ho Ht). cbn [fst].
      destruct (fst (normalize (mediaFile p) (mimeType p) (detectFileType (mimeType p)) r))
        as [url| |] eqn:E; (split; [reflexivity |]); intros _ _;
        (split; [reflexivity |]); cbn [error documentUrl failureMessage]; auto.
      left. split; [reflexivity |]. exact (located_truthy _ _ _ _ _ Ht E).
    - rewrite (normalizationEffect_skipped _ _ _ G). cbn [fst].
      split; [exact Hl |]. intros Ho Ht. rewrite Ho, Ht in G. discriminate. }
  destruct (releases p f) eqn:Hrel; [| exact H1].
  apply releases_closed in Hrel. destruct H1 as [Hl1 _].
  split; [exact Hl1 |]. intros Ho. congruence.
Qed.

(** Between renders the state cells are coherent with the last props. *)
Lemma reachable_coherent p f : reachable p f -> coherent p (state f).
Proof.
  induction 1 as [p n | q p f Hr IH].
  - apply update_coherent; [reflexivity | discriminate].
  - apply update_coherent; [apply IH |].
    intros Hd. pose proof (reachable_settled _ _ Hr) as Hset.
    destruct (deps_same _ _ _ Hd (settled_deps1 _ _ Hset)) as (Ho & Ht & Hm).
    destruct IH as [Hl Hn]. split; [exact Hl |].
    intros Hop Htp. unfold normalized in *. rewrite <- Hm. apply Hn; congruence.
Qed.

(** X4. The loading spinner is never what the modal shows between renders:
    the effect that switches it on switches it off before it returns. *)
Theorem spinner_never_shown (p : Props) (f : Fiber) :
  reachable p f ->
  isLoading (state f) = false /\ body (render (state f)) <> LoadingSpinner.
Proof.
  intros Hr. destruct (reachable_coherent _ _ Hr) as [Hl _].
  split; [exact Hl |]. unfold render. cbn [body]. rewrite Hl.
  now destruct (truthy (error (state f))).
Qed.

Lemma spinner_never_shown_witness :
  body (render (state (mount {| isOpen := true; mediaFile := JArrayBuffer 1 [];
                                mimeType := Some "application/pdf" |} 0)))
  <> LoadingSpinner.
Proof.
  apply (spinner_never_shown
           {| isOpen := true; mediaFile := JArrayBuffer 1 []; mimeType := Some "application/pdf" |}).
  apply reach_mount.
Defined.

(** X5. Once the effects of a render have run, the open modal with a truthy
    payload and a MIME hint of kind image, pdf or unknown shows either the
    viewer of that kind, pointed at a non-empty locator that the footer
    also offers for download, or the error display with one of the two
    failure messages and no footer download.  (The render before the first
    effect still has an empty body; the document kind, whose frame address
    is computed while rendering, is left out.) *)
Theorem open_modal_shows_viewer_or_error (p : Props) (f : Fiber) :
  reachable p f -> isOpen p = true -> truthyValue (mediaFile p) = true ->
  detectFileType (mimeType p) <> document ->
  let url := documentUrl (state f) in
  (truthy url = true /\
   body (render (state f)) = PreviewContent (viewerFor (detectFileType (mimeType p)) url) /\
   footerDownload (render (state f)) = Some url)
  \/
  (exists msg,
     (msg = "Unsupported media file format" \/ msg = "Failed to load document") /\
     body (render (state f)) =
       ErrorDisplay msg (if truthy url then Some url else None) /\
     footerDownload (render (state f)) = None).
Proof.
  intros Hr Ho Ht _ url.
  destruct (reachable_coherent _ _ Hr) as [Hl Hn].
  destruct (Hn Ho Ht) as [Hk [[He Hu] | He]]; subst url.
  - left. split; [exact Hu |].
    unfold render, renderPreviewContent, viewerFor. cbn [body footerDownload].
    rewrite Hl, He, Hu, Hk. cbn [truthy negb andb].
    split; [| reflexivity]. now destruct (detectFileType (mimeType p)).
  - right. exists (error (state f)). split; [tauto |].
    unfold render. cbn [body footerDownload]. rewrite Hl.
    assert (Hte : truthy (error (state f)) = true) by (destruct He as [-> | ->]; reflexivity).
    rewrite Hte, andb_false_r. split; reflexivity.
Qed.

Lemma open_modal_shows_viewer_or_error_witness :
  let p := {| isOpen := true; mediaFile := JString "Zm9v"; mimeType := Some "image/png" |} in
  body (render (state (mount p 0)))
  = PreviewContent (ImageElement "data:image/png;base64,Zm9v").
Proof.
  intros p.
  destruct (open_modal_shows_viewer_or_error p (mount p 0) (reach_mount p 0)
              eq_refl eq_refl) as [(_ & H & _) | (msg & _ & H & _)].
  - vm_compute. discriminate.
  - exact H.
  - vm_compute in H. discriminate H.
Defined.

Lemma update_fixed p f : pass p f = f -> update p f = f.
Proof.
  intros H. unfold update. cbn [rerender]. rewrite H.
  assert (E : State_eqb (state f) (state f) = true) by now apply State_eqb_eq.
  now rewrite E.
Qed.

(** X6. A load failure reported by the image element replaces the preview
    by the error display, which still offers the locator for download
    while the footer no longer does.  Rendering again with the same props
    keeps the message; the next run of the first effect for an open modal
    with a payload replaces it. *)
Theorem viewer_failure_persists (p : Props) (f : Fiber) :
  reachable p f ->
  let f' := withState onImageError f in
  let url := documentUrl (state f) in
  body (render (state f'))
  = ErrorDisplay "Failed to load image" (if truthy url then Some url else None) /\
  footerDownload (render (state f')) = None /\
  update p f' = f' /\
  forall p', isOpen p' = true -> truthyValue (mediaFile p') = true ->
             depsChanged1 (deps1 f) p' = true ->
             error (state (update p' f')) <> "Failed to load image".
Proof.
  intros Hr f' url.
  pose proof (reachable_settled _ _ Hr) as Hset.
  destruct (reachable_coherent _ _ Hr) as [Hl _].
  assert (Hst : state f' = setError "Failed to load image" (state f)) by reflexivity.
  split; [| split; [| split]].
  - unfold render. cbn [body]. rewrite Hst. cbn [isLoading error documentUrl setError].
    now rewrite Hl.
  - unfold render. cbn [footerDownload]. rewrite Hst. cbn [error documentUrl setError].
    now rewrite andb_false_r.
  - apply update_fixed, pass_idle.
    + exact (settled_deps1 _ _ Hset).
    + rewrite Hst. cbn [documentUrl setError].
      unfold f'. cbn [deps2 withState]. exact (settled_deps2 _ _ Hset).
  - intros p' Ho Ht Hd.
    rewrite (update_open_state p' f' Ho Hd), (normalizationEffect_open _ _ _ Ho Ht).
    cbn [fst].
    destruct (fst (normalize _ _ _ _)); cbn [error failureMessage]; discriminate.
Qed.

Lemma viewer_failure_persists_witness :
  let p := {| isOpen := true; mediaFile := JString "Zm9v"; mimeType := Some "image/png" |} in
  let f' := withState onImageError (mount p 0) in
  body (render (state f'))
  = ErrorDisplay "Failed to load image" (Some "data:image/png;base64,Zm9v") /\
  update p f' = f'.
Proof.
  intros p f'.
  destruct (viewer_failure_persists p (mount p 0) (reach_mount p 0)) as (H1 & _ & H3 & _).
  split; [exact H1 | exact H3].
Defined.

(** The fiber right after mounting the open modal on a payload that needs
    an object URL. *)
Lemma mount_alloc_fields (pA : Props) (n : nat) :
  isOpen pA = true -> allocates (mediaFile pA) = true ->
  documentUrl (state (mount pA n)) = blob_url n /\
  registry (mount pA n) = {| next := S n; live := {[ blob_url n ]} |} /\
  cleanup1 (mount pA n) = Some "".
Proof.
  intros HoA HaA. unfold mount.
  destruct (update_pass pA (unmounted (fresh_registry n))) as (-> & -> & _ & -> & _).
  destruct (pass_open pA (unmounted (fresh_registry n)) HoA) as (-> & -> & ->).
  unfold afterEffect1. cbn [deps1 unmounted depsChanged1 cleanup1 state registry].
  rewrite (normalizationEffect_alloc _ _ _ HoA HaA). cbn [fst snd fresh_registry next live documentUrl].
  repeat split. f_equal. apply union_empty_r_L.
Qed.

(** X9. Unmounting the open modal right after it was mounted on a [Blob], an
    [ArrayBuffer] or a wrapper of binary data releases nothing: the
    cleanup that runs is the one of the first render, which captured the
    empty [documentUrl], and the locator on display stays live. *)
Theorem unmount_while_open_leaks (pA : Props) (n : nat) :
  isOpen pA = true -> allocates (mediaFile pA) = true ->
  documentUrl (state (mount pA n)) = blob_url n /\
  live (unmount (mount pA n)) = {[ blob_url n ]}.
Proof.
  intros Ho Ha. destruct (mount_alloc_fields pA n Ho Ha) as (Hd & Hr & Hc).
  split; [exact Hd |]. unfold unmount. rewrite Hc, Hr. reflexivity.
Qed.

Lemma unmount_while_open_leaks_witness :
  live (unmount (mount {| isOpen := true; mediaFile := JBlob 7; mimeType := None |} 3))
  = {[ blob_url 3 ]}.
Proof.
  apply (unmount_while_open_leaks {| isOpen := true; mediaFile := JBlob 7; mimeType := None |} 3);
    reflexivity.
Defined.

(** X10. Closing the modal before it is unmounted leaves no locator of the
    instance live after the unmount. *)
Theorem unmount_after_close_is_clean (p pClosed : Props) (f : Fiber) :
  reachable p f -> isOpen p = true -> isOpen pClosed = false ->
  live (unmount (update pClosed f)) = ∅.
Proof.
  intros Hr Ho Hc.
  destruct (close_fields p pClosed f (reachable_settled _ _ Hr) Ho Hc)
    as (_ & Hlive & _ & Hcl & _). cbv zeta in Hlive, Hcl.
  unfold unmount. rewrite Hcl, (cleanup_empty _ _ Hlive). exact Hlive.
Qed.

Lemma unmount_after_close_is_clean_witness :
  let pA := {| isOpen := true; mediaFile := JArrayBuffer 1 []; mimeType := None |} in
  let pB := {| isOpen := true; mediaFile := JArrayBuffer 2 []; mimeType := None |} in
  let pClosed := {| isOpen := false; mediaFile := JArrayBuffer 2 []; mimeType := None |} in
  live (unmount (update pClosed (update pB (mount pA 0)))) = ∅.
Proof.
  intros pA pB pClosed.
  apply (unmount_after_close_is_clean pB pClosed (update pB (mount pA 0)));
    [apply (reach_update pA), reach_mount | reflexivity | reflexivity].
Defined.

(** ** The hosted document viewers *)

Lemma hex_pair_round_trip c : hexPairValue (hexHigh c) (hexLow c) = Some c.
Proof. destruct c as [[] [] [] [] [] [] [] []]; reflexivity. Qed.

Lemma hex_digits_unreserved c : unreserved (hexHigh c) = true /\ unreserved (hexLow c) = true.
Proof. destruct c as [[] [] [] [] [] [] [] []]; split; reflexivity. Qed.

Lemma percent_reserved : unreserved "%" = false.
Proof. reflexivity. Qed.

(** Every character of an encoded component is a letter, a digit, one of
    the nine marks, or the percent sign of an escape. *)
Lemma encodeURIComponent_chars s :
  Forall (fun c => unreserved c = true \/ c = "%"%char)
         (list_ascii_of_string (encodeURIComponent s)).
Proof.
  induction s as [|c s IH]; cbn [encodeURIComponent list_ascii_of_string]; [constructor |].
  destruct (unreserved c) eqn:E; cbn [list_ascii_of_string].
  - constructor; [now left | exact IH].
  - destruct (hex_digits_unreserved c) as [Hh Hl].
    constructor; [now right |].
    constructor; [now left |].
    constructor; [now left | exact IH].
Qed.

Lemma includes_occurs s c :
  includes s (String c "") = true -> In c (list_ascii_of_string s).
Proof.
  induction s as [|d s IH]; cbn [includes list_ascii_of_string].
  - unfold startsWith. simpl. discriminate.
  - rewrite orb_true_iff. intros [H | H].
    + apply startsWith_spec in H. destruct H as [t Ht]. inversion Ht. now left.
    + right. now apply IH.
Qed.

(** X11. The locator cannot break out of its query parameter: whatever it is,
    its encoded form contains none of the characters that delimit a URL
    ([&], [=], [?], [#], [/], [:], [+], the space), only letters,
    digits, the nine marks and percent escapes. *)
Theorem encoded_locator_has_no_delimiter (documentUrl : string) :
  Forall (fun c => unreserved c = true \/ c = "%"%char)
         (list_ascii_of_string (encodeURIComponent documentUrl)) /\
  forallb (fun delimiter => negb (includes (encodeURIComponent documentUrl) delimiter))
          ["&"; "="; "?"; "#"; "/"; ":"; "+"; " "] = true.
Proof.
  pose proof (encodeURIComponent_chars documentUrl) as Hall.
  split; [exact Hall |].
  rewrite List.Forall_forall in Hall.
  assert (Hno : forall c, unreserved c = false -> c <> "%"%char ->
                          negb (includes (encodeURIComponent documentUrl) (String c "")) = true).
  { intros c Hc Hp. apply negb_true_iff.
    destruct (includes _ _) eqn:E; [| reflexivity].
    apply includes_occurs, Hall in E. destruct E; congruence. }
  cbn [forallb]. rewrite !Hno; try reflexivity; discriminate.
Qed.

Lemma encodeURIComponent_inj a b :
  encodeURIComponent a = encodeURIComponent b -> a = b.
Proof.
  revert b. induction a as [|c a IH]; intros [|d b]; cbn [encodeURIComponent].
  - reflexivity.
  - destruct (unreserved d); discriminate.
  - destruct (unreserved c); discriminate.
  - destruct (unreserved c) eqn:Ec, (unreserved d) eqn:Ed; intros H; inversion H; subst.
    + f_equal. now apply IH.
    + rewrite percent_reserved in Ec. discriminate.
    + rewrite percent_reserved in Ed. discriminate.
    + assert (Hcd : Some c = Some d).
      { rewrite <- (hex_pair_round_trip c), <- (hex_pair_round_trip d). congruence. }
      inversion Hcd; subst. f_equal. now apply IH.
Qed.

Lemma string_length_append (s t : string) :
  String.length (s +:+ t) = (String.length s + String.length t)%nat.
Proof.
  induction s as [|c s IH]; [reflexivity |].
  change (S (String.length (s +:+ t)) = S (String.length s + String.length t)).
  now f_equal.
Qed.

Lemma append_inj_l (s1 s2 t : string) : s1 +:+ t = s2 +:+ t -> s1 = s2.
Proof.
  revert s2. induction s1 as [|c s1 IH]; intros [|d s2] H.
  - reflexivity.
  - apply (f_equal String.length) in H. rewrite !string_length_append in H.
    cbn [String.length] in H. lia.
  - apply (f_equal String.length) in H. rewrite !string_length_append in H.
    cbn [String.length] in H. lia.
  - change (String c (s1 +:+ t) = String d (s2 +:+ t)) in H.
    inversion H; subst. f_equal. now apply IH.
Qed.

(** X12. Both viewer addresses determine the locator: two locators that differ
    never give the same frame source, for the first viewer or for its
    fallback. *)
Theorem viewer_urls_injective (a b : string) :
  (googleViewerUrl a = googleViewerUrl b -> a = b) /\
  (officeViewerUrl a = officeViewerUrl b -> a = b).
Proof.
  unfold googleViewerUrl, officeViewerUrl. split; intros H.
  - apply (inj (String.app _)) in H. apply append_inj_l in H.
    now apply encodeURIComponent_inj.
  - apply (inj (String.app _)) in H. now apply encodeURIComponent_inj.
Qed.

Lemma viewer_urls_injective_witness :
  googleViewerUrl "data:image/png;base64,Zm9v"
  = "https://docs.google.com/viewer?url=data%3Aimage%2Fpng%3Bbase64%2CZm9v&embedded=true"
  /\ ("blob:0" <> "blob:1" -> googleViewerUrl "blob:0" <> googleViewerUrl "blob:1").
Proof.
  split; [reflexivity |].
  intros Hne H. apply Hne. now apply (proj1 (viewer_urls_injective "blob:0" "blob:1")).
Defined.

(** ** The modal: what a render leaves alone *)

(** X7. While the modal is open, props without a payload ([undefined], [null],
    the empty string, [0], [false]) change no state cell: the preview or
    the error of the previous payload stays on display. *)
Theorem absent_payload_keeps_preview (p : Props) (f : Fiber) :
  isOpen p = true -> truthyValue (mediaFile p) = false ->
  state (update p f) = state f /\ render (state (update p f)) = render (state f).
Proof.
  intros Ho Ht.
  assert (H : state (update p f) = state f).
  { destruct (update_pass p f) as (-> & _).
    destruct (pass_open p f Ho) as (-> & _).
    unfold afterEffect1. destruct (depsChanged1 (deps1 f) p); [| reflexivity].
    cbn [state]. rewrite normalizationEffect_skipped; [reflexivity |].
    now rewrite Ht. }
  split; [exact H | now rewrite H].
Qed.

Lemma absent_payload_keeps_preview_witness :
  let p := {| isOpen := true; mediaFile := JString "Zm9v"; mimeType := Some "image/png" |} in
  let p' := {| isOpen := true; mediaFile := JUndefined; mimeType := None |} in
  body (render (state (update p' (mount p 0))))
  = PreviewContent (ImageElement "data:image/png;base64,Zm9v").
Proof.
  intros p p'.
  rewrite (proj2 (absent_payload_keeps_preview p' (mount p 0) eq_refl eq_refl)).
  reflexivity.
Defined.

(** X8. Closing the modal changes no state cell unless the stored locator is
    an object URL: a data URI, the detected kind and an error message all
    stay stored while the modal is closed. *)
Theorem close_keeps_state (p pClosed : Props) (f : Fiber) :
  reachable p f -> isOpen p = true -> isOpen pClosed = false ->
  startsWith (documentUrl (state f)) "blob:" = false ->
  state (update pClosed f) = state f.
Proof.
  intros Hr Ho Hc Hb.
  destruct (close_fields p pClosed f (reachable_settled _ _ Hr) Ho Hc) as (Hst & _).
  cbv zeta in Hst. now rewrite Hst, Hb, andb_false_r.
Qed.

Lemma close_keeps_state_witness :
  let p := {| isOpen := true; mediaFile := JString "Zm9v"; mimeType := Some "image/png" |} in
  let pClosed := {| isOpen := false; mediaFile := JString "Zm9v"; mimeType := Some "image/png" |} in
  documentUrl (state (update pClosed (mount p 0))) = "data:image/png;base64,Zm9v".
Proof.
  intros p pClosed.
  rewrite (close_keeps_state p pClosed (mount p 0) (reach_mount p 0) eq_refl eq_refl eq_refl).
  reflexivity.
Defined.

(** A wrapper of a symbol, or of an object that has no string form: [new
    Blob] raises inside the [try], the failure is caught, and no object
    URL is created. *)
Example blob_part_failure_is_caught :
  let f := mount {| isOpen := true; mediaFile := JObject 1 (Reads (JSymbol 2));
                    mimeType := None |} 0 in
  let g := mount {| isOpen := true; mediaFile := JObject 1 (Reads (JOpaque 2));
                    mimeType := None |} 0 in
  error (state f) = "Failed to load document" /\ next (registry f) = 0%nat /\
  error (state g) = "Failed to load document" /\ next (registry g) = 0%nat.
Proof. vm_compute. repeat split; reflexivity. Qed.
